(** * Bill synchronisation engine of rentneon: retry wrapper, aggregate
    fetcher, reconciliation writer and bill cache.

    The development embeds
    - [RetryableQuery.execute] and [queryWithTimeout]
      (src/services/supabaseService.ts),
    - the stored procedures [get_bill_with_details], in its optimised
      definition (the one that steps back a month with IF p_month = 1 and
      falls back twice when there is no current bill), and
      [save_bill_complete] (database-performance-optimization.sql),
    - the [SupabaseService] methods built on them, and
    - [BillCache] (get / isStale / set / invalidate / preload).

    Asynchronous code is modelled with promises on a logical clock counted
    in milliseconds; the remote store is an explicit state.  Tables are
    finite maps indexed by their unique keys; the values [gen_random_uuid()]
    returns and the delays of the network are inputs. *)

From stdpp Require Import base numbers strings pretty list gmap fin_maps sorting.

Local Open Scope Z_scope.

(** ** Promises on a logical clock *)

Module Async.

(** A JavaScript [Error]: only its [message] is ever read. *)
Record Error := mkError { message : string }.

Inductive settled (T : Type) :=
| Resolved (v : T)
| Rejected (e : Error).
Arguments Resolved {T} v.
Arguments Rejected {T} e.

(** A promise either never settles, or settles [ms] milliseconds after the
    call that created it. *)
Inductive promise (T : Type) :=
| Pending
| Settles (ms : Z) (s : settled T).
Arguments Pending {T}.
Arguments Settles {T} ms s.

(** An asynchronous operation acting on a world of type [W]: calling it
    yields a promise and the world as the call leaves it. *)
Definition task (W T : Type) := W → promise T * W.

Definition timeout_error : Error :=
  mkError "Query timeout - operation took longer than expected".

(** [Promise.race] between a promise and a timer that rejects after
    [timeoutMs].  When both settle at the same instant the promise, listed
    first, wins. *)
Definition timed {T} (timeoutMs : Z) (p : promise T) : promise T :=
  match p with
  | Settles ms s =>
      if ms <=? timeoutMs then Settles ms s
      else Settles timeoutMs (Rejected timeout_error)
  | Pending => Settles timeoutMs (Rejected timeout_error)
  end.

(** The promise has not settled [timeoutMs] after the call. *)
Definition late {T} (timeoutMs : Z) (p : promise T) : Prop :=
  match p with
  | Pending => True
  | Settles ms _ => timeoutMs < ms
  end.

(** [queryWithTimeout]: the timer is never cancelled and the operation is not
    aborted, so whatever it did to the world stays done. *)
Definition queryWithTimeout {W T} (queryFn : task W T) (timeoutMs : Z) : task W T :=
  λ w, let '(p, w') := queryFn w in (timed timeoutMs p, w').

(** [class RetryableQuery] *)
Definition maxRetries : nat := 2.
Definition baseDelay : Z := 1000.

(** The error thrown once the loop is over.  [lastError!.message] on an
    unset [lastError] would be a [TypeError]; the loop body runs at least
    once, so that branch is unreachable from [execute]. *)
Definition exhausted (context : string) (lastError : option Error) : Error :=
  match lastError with
  | Some e =>
      mkError (context +:+ " failed after " +:+ pretty maxRetries
                 +:+ " retries: " +:+ message e)
  | None => mkError "Cannot read properties of undefined (reading 'message')"
  end.

(** The [for (attempt = 0; attempt <= maxRetries; attempt++)] loop;
    [remaining] is the number of iterations still to run and [elapsed] the
    time spent so far in attempts and back-off sleeps. *)
Fixpoint attempts {W T} (queryFn : task W T) (context : string)
    (remaining : nat) (attempt : nat) (lastError : option Error)
    (elapsed : Z) (w : W) : promise T * W :=
  match remaining with
  | O => (Settles elapsed (Rejected (exhausted context lastError)), w)
  | S remaining' =>
      let '(p, w') := queryFn w in
      match p with
      | Pending => (Pending, w')
      | Settles ms (Resolved v) => (Settles (elapsed + ms) (Resolved v), w')
      | Settles ms (Rejected e) =>
          let delay :=
            if (attempt <? maxRetries)%nat
            then baseDelay * 2 ^ Z.of_nat attempt
            else 0 in
          attempts queryFn context remaining' (S attempt) (Some e)
                   (elapsed + ms + delay) w'
      end
  end.

Definition execute {W T} (queryFn : task W T) (context : string) : task W T :=
  attempts queryFn context (S maxRetries) 0%nat None 0.

(** Instrumentation: the same operation, counting its invocations. *)
Definition counting {W T} (queryFn : task W T) : task (W * nat) T :=
  λ '(w, n), let '(p, w') := queryFn w in (p, (w', S n)).

(** The world as it is after [k] invocations in a row, and what the next
    invocation yields. *)
Fixpoint world_after {W T} (queryFn : task W T) (w : W) (k : nat) : W :=
  match k with
  | O => w
  | S k' => snd (queryFn (world_after queryFn w k'))
  end.

Definition outcome {W T} (queryFn : task W T) (w : W) (k : nat) : promise T :=
  fst (queryFn (world_after queryFn w k)).

End Async.

(** ** The remote store *)

Module Store.

(** UUID values travel as text, both in the tables and in JSON. *)
Abbreviation uuid := string (only parsing).

(** DECIMAL(10,2) and DECIMAL(5,2) columns are held in hundredths. *)
Abbreviation decimal := Z (only parsing).

Inductive payment_kind := cash | online.

(** *** Rows *)

(** [renters]: only the owner column is read by the engine. *)
Record RenterRow := mkRenter { renter_user_id : option uuid }.

(** The value columns of [monthly_bills], written as one block by the
    upsert.  Columns that the readers default with [COALESCE] or [||] are
    nullable. *)
Record BillFields := mkBillFields {
  rent_amount : decimal;
  electricity_enabled : bool;
  electricity_initial_reading : option Z;
  electricity_final_reading : option Z;
  electricity_multiplier : option decimal;
  electricity_reading_date : option string;
  electricity_amount : decimal;
  motor_enabled : bool;
  motor_initial_reading : option Z;
  motor_final_reading : option Z;
  motor_multiplier : option decimal;
  motor_number_of_people : option Z;
  motor_reading_date : option string;
  motor_amount : decimal;
  water_enabled : bool;
  water_amount : decimal;
  maintenance_enabled : bool;
  maintenance_amount : decimal;
  total_amount : decimal;
  total_payments : decimal;
  pending_amount : decimal
}.

(** A row of [monthly_bills] without its key columns: the table is indexed
    by its UNIQUE (renter_id, month, year) constraint. *)
Record BillRow := mkBillRow {
  bill_id : uuid;
  bill_user_id : option uuid;
  bill_fields : BillFields;
  bill_created_at : Z;
  bill_updated_at : Z
}.

Record ExpenseFields := mkExpenseFields {
  description : string;
  expense_amount : decimal;
  date : string
}.

Record PaymentFields := mkPaymentFields {
  payment_amount : decimal;
  payment_date : string;
  payment_type : payment_kind;
  note : option string
}.

(** A row of [additional_expenses] or [bill_payments], indexed by its
    primary key [id]; [F] is the block of value columns. *)
Record ChildRow (F : Type) := mkChildRow {
  monthly_bill_id : uuid;
  content : F;
  created_at : Z
}.
Arguments mkChildRow {F} _ _ _.
Arguments monthly_bill_id {F} _.
Arguments content {F} _.
Arguments created_at {F} _.

(** The server: four tables, the transaction clock [NOW()], and the values
    [gen_random_uuid()] is going to return, [drawn] of them used so far. *)
Record Db := mkDb {
  renters : gmap Z RenterRow;
  monthly_bills : gmap (Z * Z * Z) BillRow;
  additional_expenses : gmap string (ChildRow ExpenseFields);
  bill_payments : gmap string (ChildRow PaymentFields);
  now : Z;
  gen_random_uuid : nat → uuid;
  drawn : nat
}.

(** *** JSON values exchanged with the client (the TypeScript interfaces) *)

Record MonthlyBill := mkMonthlyBill {
  id : option uuid;
  user_id : option uuid;
  renter_id : Z;
  month : Z;
  year : Z;
  fields : BillFields;
  bill_json_created_at : option Z;
  bill_json_updated_at : option Z
}.

(** [AdditionalExpense] and [BillPayment]: [F] is [ExpenseFields] or
    [PaymentFields]. *)
Record Child (F : Type) := mkChild {
  child_id : option uuid;
  child_bill_id : uuid;
  child_fields : F;
  child_created_at : option Z
}.
Arguments mkChild {F} _ _ _ _.
Arguments child_id {F} _.
Arguments child_bill_id {F} _.
Arguments child_fields {F} _.
Arguments child_created_at {F} _.

Abbreviation AdditionalExpense := (Child ExpenseFields) (only parsing).
Abbreviation BillPayment := (Child PaymentFields) (only parsing).

Record PreviousReadings := mkPreviousReadings {
  electricity_final : Z;
  motor_final : Z
}.

Record BillWithDetails := mkBillWithDetails {
  bill : option MonthlyBill;
  expenses : list AdditionalExpense;
  payments : list BillPayment;
  previous_readings : PreviousReadings
}.

Record SaveBillResult := mkSaveBillResult {
  result_bill_id : uuid;
  expense_ids : list uuid;
  payment_ids : list uuid;
  success : bool
}.

(** *** get_bill_with_details (the optimised definition) *)

(** [COALESCE(x, 0)] *)
Definition coalesce0 (x : option Z) : Z := default 0 x.

(** [IF p_month = 1 THEN ... ELSE ... END IF] *)
Definition previous_period (p_month p_year : Z) : Z * Z :=
  if decide (p_month = 1) then (12, p_year - 1) else (p_month - 1, p_year).

(** [SELECT ... FROM monthly_bills WHERE renter_id = .. AND month = .. AND
    year = .. AND user_id = ..]: at most one row, by the UNIQUE constraint. *)
Definition select_bill (db : Db) (p_renter_id p_month p_year : Z)
    (p_user_id : uuid) : option BillRow :=
  row ← monthly_bills db !! (p_renter_id, p_month, p_year);
  if decide (bill_user_id row = Some p_user_id) then Some row else None.

(** [row_to_json(bd)] *)
Definition bill_json (p_renter_id p_month p_year : Z) (row : BillRow) : MonthlyBill :=
  {| id := Some (bill_id row);
     user_id := bill_user_id row;
     renter_id := p_renter_id;
     month := p_month;
     year := p_year;
     fields := bill_fields row;
     bill_json_created_at := Some (bill_created_at row);
     bill_json_updated_at := Some (bill_updated_at row) |}.

(** [json_build_object('id', ae.id, 'monthly_bill_id', ...)] *)
Definition child_json {F} (kv : string * ChildRow F) : Child F :=
  {| child_id := Some kv.1;
     child_bill_id := monthly_bill_id kv.2;
     child_fields := content kv.2;
     child_created_at := Some (created_at kv.2) |}.

(** The rows of a child table attached to one bill. *)
Definition children_of {F} (v_bill_id : uuid) (tbl : gmap string (ChildRow F))
    : gmap string (ChildRow F) :=
  filter (λ kv, monthly_bill_id kv.2 = v_bill_id) tbl.

(** [json_agg(...)] over the rows joined to the bill; SQL leaves the order
    of the aggregate open, the model lists rows in key order. *)
Definition children_agg {F} (v_bill_id : uuid) (tbl : gmap string (ChildRow F))
    : list (Child F) :=
  child_json <$> map_to_list (children_of v_bill_id tbl).

(** The CTE [previous_readings]. *)
Definition previous_readings_cte (db : Db) (p_renter_id p_month p_year : Z)
    (p_user_id : uuid) : option PreviousReadings :=
  let '(v_prev_month, v_prev_year) := previous_period p_month p_year in
  row ← select_bill db p_renter_id v_prev_month v_prev_year p_user_id;
  Some {| electricity_final := coalesce0 (electricity_final_reading (bill_fields row));
          motor_final := coalesce0 (motor_final_reading (bill_fields row)) |}.

Definition zero_readings : PreviousReadings :=
  {| electricity_final := 0; motor_final := 0 |}.

(** The function returns JSON, [NULL] included in its type; the three steps
    are the main SELECT, the "no current bill" SELECT and the final
    fallback. *)
Definition get_bill_with_details (db : Db) (p_renter_id p_month p_year : Z)
    (p_user_id : uuid) : option BillWithDetails :=
  let pr := previous_readings_cte db p_renter_id p_month p_year p_user_id in
  let v_result :=
    bd ← select_bill db p_renter_id p_month p_year p_user_id;
    Some {| bill := Some (bill_json p_renter_id p_month p_year bd);
            expenses := children_agg (bill_id bd) (additional_expenses db);
            payments := children_agg (bill_id bd) (bill_payments db);
            previous_readings :=
              {| electricity_final := coalesce0 (electricity_final <$> pr);
                 motor_final := coalesce0 (motor_final <$> pr) |} |} in
  let v_result :=
    match v_result with
    | Some r => Some r
    | None =>
        pr ← pr;
        Some {| bill := None; expenses := []; payments := [];
                previous_readings :=
                  {| electricity_final := coalesce0 (Some (electricity_final pr));
                     motor_final := coalesce0 (Some (motor_final pr)) |} |}
    end in
  match v_result with
  | Some r => Some r
  | None =>
      Some {| bill := None; expenses := []; payments := [];
              previous_readings := zero_readings |}
  end.

(** *** save_bill_complete *)

Inductive SqlError := unique_violation | foreign_key_violation.

(** The test [value->>'id' IS NOT NULL AND value->>'id' != 'null'], yielding
    [(value->>'id')::UUID] when it passes.  The cast is taken to succeed:
    identities are well-formed UUID text. *)
Definition assigned_id {F} (value : Child F) : option uuid :=
  match child_id value with
  | Some s => if decide (s = "null") then None else Some s
  | None => None
  end.

(** [DELETE FROM t WHERE monthly_bill_id = v_bill_id AND id NOT IN (SELECT
    (value->>'id')::UUID FROM json_array_elements(p) WHERE ...)] *)
Definition delete_not_listed {F} (v_bill_id : uuid) (p : list (Child F))
    (tbl : gmap string (ChildRow F)) : gmap string (ChildRow F) :=
  filter (λ kv, ¬ (monthly_bill_id kv.2 = v_bill_id ∧ kv.1 ∉ omap assigned_id p)) tbl.

(** [UPDATE t SET ... WHERE id = .. AND monthly_bill_id = v_bill_id]: a row
    that is missing, or attached to another bill, is left alone. *)
Definition update_child {F} (v_bill_id : uuid) (k : uuid) (f : F)
    (tbl : gmap string (ChildRow F)) : gmap string (ChildRow F) :=
  match tbl !! k with
  | Some row =>
      if decide (monthly_bill_id row = v_bill_id)
      then <[k := mkChildRow v_bill_id f (created_at row)]> tbl
      else tbl
  | None => tbl
  end.

(** The [FOR v IN SELECT * FROM json_array_elements(p) LOOP ... END LOOP]
    over one child list.  The state is the table, the number of UUIDs drawn
    and the array of identities built so far. *)
Fixpoint process_children {F} (gen : nat → uuid) (clock : Z) (v_bill_id : uuid)
    (p : list (Child F)) (tbl : gmap string (ChildRow F)) (n : nat)
    (v_ids : list uuid)
    : SqlError + (gmap string (ChildRow F) * nat * list uuid) :=
  match p with
  | [] => inr (tbl, n, v_ids)
  | v :: p' =>
      match assigned_id v with
      | None =>
          let v_new_id := gen n in
          match tbl !! v_new_id with
          | Some _ => inl unique_violation
          | None =>
              process_children gen clock v_bill_id p'
                (<[v_new_id := mkChildRow v_bill_id (child_fields v) clock]> tbl)
                (S n) (v_ids ++ [v_new_id])
          end
      | Some k =>
          process_children gen clock v_bill_id p'
            (update_child v_bill_id k (child_fields v) tbl) n (v_ids ++ [k])
      end
  end.

(** [INSERT INTO monthly_bills ... ON CONFLICT (renter_id, month, year) DO
    UPDATE SET ... RETURNING id].  On conflict the value columns and
    [updated_at] are overwritten; [id], [user_id] and [created_at] stay.
    Otherwise a row is inserted under a drawn identity, subject to the
    primary key and to the foreign key on [renter_id]. *)
Definition upsert_bill (p_bill_data : MonthlyBill) (p_user_id : uuid) (db : Db)
    : SqlError + (uuid * gmap (Z * Z * Z) BillRow * nat) :=
  let key := (renter_id p_bill_data, month p_bill_data, year p_bill_data) in
  match monthly_bills db !! key with
  | Some row =>
      inr (bill_id row,
           <[key := mkBillRow (bill_id row) (bill_user_id row) (fields p_bill_data)
                      (bill_created_at row) (now db)]> (monthly_bills db),
           drawn db)
  | None =>
      let v_bill_id := gen_random_uuid db (drawn db) in
      if decide (map_Exists (λ _ row, bill_id row = v_bill_id) (monthly_bills db))
      then inl unique_violation
      else if decide (is_Some (renters db !! renter_id p_bill_data))
      then inr (v_bill_id,
                <[key := mkBillRow v_bill_id (Some p_user_id) (fields p_bill_data)
                           (now db) (now db)]> (monthly_bills db),
                S (drawn db))
      else inl foreign_key_violation
  end.

(** The whole function runs in one transaction: an error leaves no trace, so
    the caller keeps the database it had. *)
Definition save_bill_complete (p_bill_data : MonthlyBill)
    (p_expenses : list AdditionalExpense) (p_payments : list BillPayment)
    (p_user_id : uuid) (db : Db) : SqlError + (SaveBillResult * Db) :=
  match upsert_bill p_bill_data p_user_id db with
  | inl e => inl e
  | inr (v_bill_id, bills, n0) =>
      let exps := delete_not_listed v_bill_id p_expenses (additional_expenses db) in
      let pays := delete_not_listed v_bill_id p_payments (bill_payments db) in
      match process_children (gen_random_uuid db) (now db) v_bill_id p_expenses exps n0 [] with
      | inl e => inl e
      | inr (exps', n1, v_expense_ids) =>
          match process_children (gen_random_uuid db) (now db) v_bill_id p_payments pays n1 [] with
          | inl e => inl e
          | inr (pays', n2, v_payment_ids) =>
              inr ({| result_bill_id := v_bill_id;
                      expense_ids := v_expense_ids;
                      payment_ids := v_payment_ids;
                      success := true |},
                   {| renters := renters db;
                      monthly_bills := bills;
                      additional_expenses := exps';
                      bill_payments := pays';
                      now := now db;
                      gen_random_uuid := gen_random_uuid db;
                      drawn := n2 |})
          end
      end
  end.

(** *** Vocabulary for the reconciliation properties *)

(** [k] is the identity of a row of [tbl] attached to bill [v_bill_id]. *)
Definition attached {F} (v_bill_id : uuid) (tbl : gmap string (ChildRow F))
    (k : uuid) : Prop :=
  ∃ row, tbl !! k = Some row ∧ monthly_bill_id row = v_bill_id.

(** The rows of [tbl] attached to [v_bill_id] are exactly the items of [p],
    item [i] stored under identity [ids !! i]: one identity per item, no
    identity twice. *)
Definition exact_match {F} (v_bill_id : uuid) (tbl : gmap string (ChildRow F))
    (p : list (Child F)) (ids : list uuid) : Prop :=
  length ids = length p ∧
  NoDup ids ∧
  ∀ k f,
    (∃ row, tbl !! k = Some row ∧ monthly_bill_id row = v_bill_id ∧ content row = f)
    ↔ (∃ i v, ids !! i = Some k ∧ p !! i = Some v ∧ child_fields v = f).

(** The assigned identities of [p] are pairwise different and each names a
    row that [tbl] holds for [v_bill_id]. *)
Definition known_children {F} (v_bill_id : uuid) (tbl : gmap string (ChildRow F))
    (p : list (Child F)) : Prop :=
  NoDup (omap assigned_id p) ∧ ∀ k, k ∈ omap assigned_id p → attached v_bill_id tbl k.

(** What one child list has become once the writer is through: [before] and
    [after] are the table on entry and on return, [ids] the identities
    returned for [p]. *)
Definition reconciled {F} (v_bill_id : uuid) (before after : gmap string (ChildRow F))
    (p : list (Child F)) (ids : list uuid) : Prop :=
  exact_match v_bill_id after p ids ∧
  (∀ i v k, p !! i = Some v → assigned_id v = Some k → ids !! i = Some k) ∧
  (∀ i v g, p !! i = Some v → assigned_id v = None → ids !! i = Some g →
            delete_not_listed v_bill_id p before !! g = None) ∧
  (∀ k, attached v_bill_id before k → k ∉ omap assigned_id p → k ∉ ids →
        after !! k = None) ∧
  (∀ k row, before !! k = Some row → monthly_bill_id row ≠ v_bill_id →
            after !! k = Some row).

(** The content the loop leaves in a row of identity [k] that held [d]: that
    of the last item of [p] carrying [k], if any. *)
Definition last_fields {F} (k : uuid) (p : list (Child F)) (d : F) : F :=
  foldl (λ acc v, if decide (assigned_id v = Some k) then child_fields v else acc) d p.

(** The row the loop leaves under [k], from the row it found there. *)
Definition rewritten {F} (v_bill_id : uuid) (p : list (Child F)) (k : uuid)
    (row : ChildRow F) : ChildRow F :=
  if decide (monthly_bill_id row = v_bill_id)
  then mkChildRow v_bill_id (last_fields k p (content row)) (created_at row)
  else row.


(** Where bill (renter, month, year) is, or will be, stored. *)
Definition bill_key (p_bill_data : MonthlyBill) : Z * Z * Z :=
  (renter_id p_bill_data, month p_bill_data, year p_bill_data).

End Store.

(** ** Client-side state *)

Module Monitor.

(** One entry of [queryLogs]; the free-form [parameters] object is kept only
    for the [error] text that [trackQueryPerformance] adds on failure. *)
Record QueryMetrics := mkQueryMetrics {
  queryName : string;
  executionTime : Z;
  error_parameter : option string;
  isSlow : bool
}.

Record PerformanceMonitor := mkMonitor {
  queryLogs : list QueryMetrics;
  cacheHits : nat;
  cacheMisses : nat
}.

Definition SLOW_QUERY_THRESHOLD : Z := 500.
Definition MAX_LOG_SIZE : nat := 100.

Definition logQuery (name : string) (time : Z) (err : option string)
    (m : PerformanceMonitor) : PerformanceMonitor :=
  let metrics := mkQueryMetrics name time err (bool_decide (SLOW_QUERY_THRESHOLD < time)) in
  let logs := queryLogs m ++ [metrics] in
  {| queryLogs := if decide (MAX_LOG_SIZE < length logs)%nat then tail logs else logs;
     cacheHits := cacheHits m;
     cacheMisses := cacheMisses m |}.

Definition recordCacheHit (m : PerformanceMonitor) : PerformanceMonitor :=
  {| queryLogs := queryLogs m; cacheHits := S (cacheHits m); cacheMisses := cacheMisses m |}.

Definition recordCacheMiss (m : PerformanceMonitor) : PerformanceMonitor :=
  {| queryLogs := queryLogs m; cacheHits := cacheHits m; cacheMisses := S (cacheMisses m) |}.

End Monitor.

Module Data.

(** A JavaScript [Date], by the way it was built: [new Date(text)] or
    [new Date()] at a given reading of the clock. *)
Inductive JsDate := DateOf (text : string) | DateAt (clock : Z).

Record ElectricityData := mkElectricityData {
  e_initialReading : Z;
  e_finalReading : Z;
  e_multiplier : Z;
  e_readingDate : JsDate
}.

Record MotorData := mkMotorData {
  m_initialReading : Z;
  m_finalReading : Z;
  m_multiplier : Z;
  m_numberOfPeople : Z;
  m_readingDate : JsDate
}.

Record ExpenseItem := mkExpenseItem {
  x_id : option string;
  x_description : string;
  x_amount : Z;
  x_date : JsDate
}.

Record PaymentItem := mkPaymentItem {
  p_id : option string;
  p_amount : Z;
  p_date : JsDate;
  p_type : Store.payment_kind;
  p_note : option string
}.

Record MonthData := mkMonthData {
  rentAmount : Z;
  electricityEnabled : bool;
  electricityData : ElectricityData;
  motorEnabled : bool;
  motorData : MotorData;
  waterEnabled : bool;
  waterAmount : Z;
  maintenanceEnabled : bool;
  maintenanceAmount : Z;
  additionalExpenses : list ExpenseItem;
  payments : list PaymentItem
}.

Record CacheEntry := mkCacheEntry {
  data : MonthData;
  timestamp : Z;
  isStale : bool
}.

(** Everything the engine runs against: the signed-in user, the server, the
    network (how long the [n]-th remote attempt takes to answer, if it ever
    does), and the two client-side singletons. *)
Record World := mkWorld {
  session : option string;
  rpc_deployed : bool;
  db : Store.Db;
  latency : nat → option Z;
  round_trips : nat;
  performanceMonitor : Monitor.PerformanceMonitor;
  cache : gmap string CacheEntry
}.

Definition with_db (d : Store.Db) (w : World) : World :=
  mkWorld (session w) (rpc_deployed w) d (latency w) (round_trips w)
          (performanceMonitor w) (cache w).

Definition with_round_trips (n : nat) (w : World) : World :=
  mkWorld (session w) (rpc_deployed w) (db w) (latency w) n
          (performanceMonitor w) (cache w).

Definition with_monitor (m : Monitor.PerformanceMonitor) (w : World) : World :=
  mkWorld (session w) (rpc_deployed w) (db w) (latency w) (round_trips w) m (cache w).

Definition with_cache (c : gmap string CacheEntry) (w : World) : World :=
  mkWorld (session w) (rpc_deployed w) (db w) (latency w) (round_trips w)
          (performanceMonitor w) c.

End Data.

(** ** SupabaseService *)

Module SupabaseService.
Import Async Store Monitor Data.

(** JavaScript [x || d] on a possibly missing number: [null], [undefined] and
    [0] all give [d]. *)
Definition or_default (d : Z) (x : option Z) : Z :=
  match x with
  | Some z => if decide (z = 0) then d else z
  | None => d
  end.

Definition error_text {T} (s : settled T) : option string :=
  match s with
  | Rejected e => Some (message e)
  | Resolved _ => None
  end.

(** [trackQueryPerformance]: run, log the elapsed time, pass the outcome on
    unchanged.  Nothing is logged for a promise that never settles. *)
Definition trackQueryPerformance {T} (name : string) (queryFn : task World T)
    : task World T :=
  λ w,
    let '(p, w') := queryFn w in
    match p with
    | Pending => (Pending, w')
    | Settles ms s =>
        (Settles ms s,
         with_monitor (logQuery name ms (error_text s) (performanceMonitor w')) w')
    end.

(** [try { ... } catch (error) { throw new Error(`<prefix>${error.message}`) }] *)
Definition rethrow {T} (prefix : string) (queryFn : task World T) : task World T :=
  λ w,
    let '(p, w') := queryFn w in
    (match p with
     | Settles ms (Rejected e) => Settles ms (Rejected (mkError (prefix +:+ message e)))
     | _ => p
     end, w').

(** One remote exchange: the answer [s] arrives after the delay the network
    has in store for this exchange, or never. *)
Definition respond {T} (s : settled T) (w : World) : promise T * World :=
  (match latency w (round_trips w) with
   | Some ms => Settles ms s
   | None => Pending
   end, with_round_trips (S (round_trips w)) w).

(** [getMonthlyBill]: every failure inside, the ownership check included, ends
    in the catch-all that logs and returns [null]. *)
Definition getMonthlyBill (renterId month year : Z) (w : World) : option MonthlyBill :=
  match session w with
  | None => None
  | Some user =>
      match renters (db w) !! renterId with
      | Some renter =>
          if decide (renter_user_id renter = Some user)
          then bill_json renterId month year
                 <$> select_bill (db w) renterId month year user
          else None
      | None => None
      end
  end.

Definition getPreviousMonthBill (renterId month year : Z) (w : World)
    : option MonthlyBill :=
  let prevMonth := month - 1 in
  let prevYear := year in
  if decide (prevMonth = 0)
  then getMonthlyBill renterId 12 (year - 1) w
  else getMonthlyBill renterId prevMonth prevYear w.

(** [.order('created_at', { ascending: false })] *)
Definition newest_first {F} (a b : string * ChildRow F) : Prop :=
  created_at b.2 ≤ created_at a.2.

Global Instance newest_first_dec {F} (a b : string * ChildRow F) :
  Decision (newest_first a b).
Proof. unfold newest_first. apply _. Defined.

(** The body shared by [getAdditionalExpenses] and [getBillPayments]: rows of
    one bill, newest first; [[]] when nobody is signed in.  (Row-level
    security hides children of other users' bills; both callers pass the
    identity of a bill just read for the signed-in user.) *)
Definition select_children {F} (tbl : gmap string (ChildRow F))
    (monthlyBillId : string) (w : World) : list (Child F) :=
  match session w with
  | None => []
  | Some _ =>
      child_json <$> merge_sort newest_first (map_to_list (children_of monthlyBillId tbl))
  end.

Definition getAdditionalExpenses (monthlyBillId : string) (w : World)
    : list AdditionalExpense :=
  select_children (additional_expenses (db w)) monthlyBillId w.

Definition getBillPayments (monthlyBillId : string) (w : World) : list BillPayment :=
  select_children (bill_payments (db w)) monthlyBillId w.

(** What [supabase.rpc] hands back: [{ data, error }]. *)
Inductive RpcResponse (T : Type) :=
| RpcError (msg : string)
| RpcData (data : option T).
Arguments RpcError {T} msg.
Arguments RpcData {T} data.

Definition rpc_get_bill_with_details (renterId month year : Z) (user : string)
    (w : World) : RpcResponse BillWithDetails :=
  if rpc_deployed w
  then RpcData (get_bill_with_details (db w) renterId month year user)
  else RpcError "Could not find the function get_bill_with_details".

Definition empty_details (r : PreviousReadings) : BillWithDetails :=
  {| bill := None; expenses := []; Store.payments := []; previous_readings := r |}.

Definition carried_readings (previousBill : option MonthlyBill) : PreviousReadings :=
  {| electricity_final :=
       or_default 0 (previousBill ≫= λ b, electricity_final_reading (fields b));
     motor_final :=
       or_default 0 (previousBill ≫= λ b, motor_final_reading (fields b)) |}.

(** The [catch (rpcError)] branch of [getBillWithDetails]. *)
Definition parallel_fallback (renterId month year : Z) (w : World) : BillWithDetails :=
  let bill := getMonthlyBill renterId month year w in
  let previousBill := getPreviousMonthBill renterId month year w in
  match bill with
  | None => empty_details (carried_readings previousBill)
  | Some b =>
      {| bill := Some b;
         expenses := from_option (λ i, getAdditionalExpenses i w) [] (id b);
         Store.payments := from_option (λ i, getBillPayments i w) [] (id b);
         previous_readings := carried_readings previousBill |}
  end.

(** The function handed to [queryWithTimeout] by [getBillWithDetails]. *)
Definition getBillWithDetails_query (renterId month year : Z) (w : World)
    : settled BillWithDetails :=
  match session w with
  | None => Rejected (mkError "User not authenticated")
  | Some user =>
      match rpc_get_bill_with_details renterId month year user w with
      | RpcError _ => Resolved (parallel_fallback renterId month year w)
      | RpcData None => Resolved (empty_details zero_readings)
      | RpcData (Some data) => Resolved data
      end
  end.

Definition getBillWithDetails (renterId month year : Z) : task World BillWithDetails :=
  trackQueryPerformance "getBillWithDetails"
    (rethrow "Failed to fetch bill details: "
       (execute
          (queryWithTimeout
             (λ w, respond (getBillWithDetails_query renterId month year w) w) 5000)
          "getBillWithDetails")).

Definition sql_error_message (e : SqlError) : string :=
  match e with
  | unique_violation => "duplicate key value violates unique constraint"
  | foreign_key_violation => "insert or update on table violates foreign key constraint"
  end.

(** The function handed to [queryWithTimeout] by [saveBillComplete].  The
    procedure runs on the server whether or not the answer comes back. *)
Definition saveBillComplete_query (billData : MonthlyBill)
    (expenses : list AdditionalExpense) (payments : list BillPayment)
    : task World SaveBillResult :=
  λ w,
    match session w with
    | None => respond (Rejected (mkError "User not authenticated")) w
    | Some user =>
        if rpc_deployed w then
          match save_bill_complete billData expenses payments user (db w) with
          | inl e => respond (Rejected (mkError (sql_error_message e))) w
          | inr (data, db') => respond (Resolved data) (with_db db' w)
          end
        else respond (Rejected (mkError "Could not find the function save_bill_complete")) w
    end.

Definition saveBillComplete (billData : MonthlyBill)
    (expenses : list AdditionalExpense) (payments : list BillPayment)
    : task World SaveBillResult :=
  trackQueryPerformance "saveBillComplete"
    (rethrow "Failed to save bill: "
       (execute (queryWithTimeout (saveBillComplete_query billData expenses payments) 5000)
                "saveBillComplete")).

(** *** Vocabulary *)

(** The renter exists and belongs to [user]. *)
Definition owns (d : Db) (user : string) (renterId : Z) : Prop :=
  ∃ renter, renters d !! renterId = Some renter ∧ renter_user_id renter = Some user.

(** The exchange about to start is answered after [ms], short of the
    5000 ms bound. *)
Definition answers_in_time (w : World) (ms : Z) : Prop :=
  latency w (round_trips w) = Some ms ∧ ms < 5000.

(** The [j]-th exchange from now is answered after the bound, or never. *)
Definition answers_late (w : World) (j : nat) : Prop :=
  match latency w (round_trips w + j)%nat with
  | Some ms => 5000 < ms
  | None => True
  end.

End SupabaseService.

(** ** BillCache *)

Module BillCache.
Import Async Store Monitor Data SupabaseService.

(** 15 minutes *)
Definition CACHE_TTL : Z := 15 * 60 * 1000.

(** [`${renterId}-${year}-${month}`] *)
Definition getCacheKey (renterId month year : Z) : string :=
  pretty renterId +:+ "-" +:+ pretty year +:+ "-" +:+ pretty month.

(** [t] is the reading of [Date.now()] during the call. *)
Definition get (t : Z) (renterId month year : Z) (w : World)
    : option MonthData * World :=
  let key := getCacheKey renterId month year in
  match cache w !! key with
  | None => (None, with_monitor (recordCacheMiss (performanceMonitor w)) w)
  | Some entry =>
      let w := with_monitor (recordCacheHit (performanceMonitor w)) w in
      let w :=
        if decide (t - timestamp entry > CACHE_TTL)
        then with_cache (<[key := mkCacheEntry (data entry) (timestamp entry) true]> (cache w)) w
        else w in
      (Some (data entry), w)
  end.

Definition isStale (t : Z) (renterId month year : Z) (w : World) : bool :=
  let key := getCacheKey renterId month year in
  match cache w !! key with
  | None => false
  | Some entry => bool_decide (t - timestamp entry > CACHE_TTL)
  end.

Definition set (t : Z) (renterId month year : Z) (d : MonthData) (w : World) : World :=
  let key := getCacheKey renterId month year in
  with_cache (<[key := mkCacheEntry d t false]> (cache w)) w.

Definition invalidate (renterId month year : Z) (w : World) : World :=
  let key := getCacheKey renterId month year in
  with_cache (delete key (cache w)) w.

Definition clear (w : World) : World := with_cache ∅ w.

(** [text ? new Date(text) : new Date()] *)
Definition reading_date (t : Z) (text : option string) : JsDate :=
  match text with
  | Some s => if decide (s = "") then DateAt t else DateOf s
  | None => DateAt t
  end.

(** The multiplier default [9], in hundredths like the column it replaces. *)
Definition default_multiplier : Z := 900.

(** [billData] built from an existing bill and its children. *)
Definition bill_month_data (t : Z) (existingBill : MonthlyBill)
    (expenses : list AdditionalExpense) (billPayments : list BillPayment) : MonthData :=
  let f := fields existingBill in
  {| rentAmount := rent_amount f;
     electricityEnabled := electricity_enabled f;
     electricityData :=
       {| e_initialReading := or_default 0 (electricity_initial_reading f);
          e_finalReading := or_default 0 (electricity_final_reading f);
          e_multiplier := or_default default_multiplier (electricity_multiplier f);
          e_readingDate := reading_date t (electricity_reading_date f) |};
     motorEnabled := motor_enabled f;
     motorData :=
       {| m_initialReading := or_default 0 (motor_initial_reading f);
          m_finalReading := or_default 0 (motor_final_reading f);
          m_multiplier := or_default default_multiplier (motor_multiplier f);
          m_numberOfPeople := or_default 2 (motor_number_of_people f);
          m_readingDate := reading_date t (motor_reading_date f) |};
     waterEnabled := water_enabled f;
     waterAmount := water_amount f;
     maintenanceEnabled := maintenance_enabled f;
     maintenanceAmount := maintenance_amount f;
     additionalExpenses :=
       (λ exp, mkExpenseItem (child_id exp) (description (child_fields exp))
                 (expense_amount (child_fields exp)) (DateOf (date (child_fields exp))))
         <$> expenses;
     Data.payments :=
       (λ payment, mkPaymentItem (child_id payment) (payment_amount (child_fields payment))
                     (DateOf (payment_date (child_fields payment)))
                     (payment_type (child_fields payment)) (note (child_fields payment)))
         <$> billPayments |}.

(** [billData] of a month without a bill: carry-forward readings. *)
Definition fresh_month_data (t : Z) (monthlyRent : Z) (previousBill : option MonthlyBill)
    : MonthData :=
  let electricity := or_default 0 (previousBill ≫= λ b, electricity_final_reading (fields b)) in
  let motor := or_default 0 (previousBill ≫= λ b, motor_final_reading (fields b)) in
  {| rentAmount := monthlyRent;
     electricityEnabled := false;
     electricityData := mkElectricityData electricity electricity default_multiplier (DateAt t);
     motorEnabled := false;
     motorData := mkMotorData motor motor default_multiplier 2 (DateAt t);
     waterEnabled := false;
     waterAmount := 0;
     maintenanceEnabled := false;
     maintenanceAmount := 0;
     additionalExpenses := [];
     Data.payments := [] |}.

(** What the [try] block of [loadIfNotCached] computes once the reads have
    answered at time [t].  The service reads it awaits all end in their own
    catch-all, so none of them can reject into the [catch] here. *)
Definition load_month_data (t : Z) (renterId month year monthlyRent : Z) (w : World)
    : MonthData :=
  match getMonthlyBill renterId month year w with
  | Some existingBill =>
      bill_month_data t existingBill
        (from_option (λ i, getAdditionalExpenses i w) [] (id existingBill))
        (from_option (λ i, getBillPayments i w) [] (id existingBill))
  | None =>
      fresh_month_data t monthlyRent (getPreviousMonthBill renterId month year w)
  end.

(** [loadIfNotCached], called at time [t0].  On a miss the reads form one
    remote exchange; if the network never answers it the load stays pending
    and the cache is left as it is. *)
Definition loadIfNotCached (t0 : Z) (renterId month year monthlyRent : Z) (w : World)
    : World :=
  let '(hit, w) := get t0 renterId month year w in
  match hit with
  | Some _ => w
  | None =>
      let n := round_trips w in
      let w := with_round_trips (S n) w in
      match latency w n with
      | None => w
      | Some ms =>
          set (t0 + ms) renterId month year
              (load_month_data (t0 + ms) renterId month year monthlyRent w) w
      end
  end.

(** The two months next to (month, year), previous first. *)
Definition adjacent (month year : Z) : (Z * Z) * (Z * Z) :=
  let prevMonth := if decide (month = 1) then 12 else month - 1 in
  let prevYear := if decide (month = 1) then year - 1 else year in
  let nextMonth := if decide (month = 12) then 1 else month + 1 in
  let nextYear := if decide (month = 12) then year + 1 else year in
  ((prevMonth, prevYear), (nextMonth, nextYear)).

(** [preload]: the promise it returns resolves at once, since the
    [Promise.all] of the two loads is neither awaited nor returned and carries
    its own [catch].  The world component is the world once the two
    background loads are over; they work on different keys. *)
Definition preload (t0 : Z) (renterId month year monthlyRent : Z) (w : World)
    : settled unit * World :=
  let '((prevMonth, prevYear), (nextMonth, nextYear)) := adjacent month year in
  (Resolved (),
   loadIfNotCached t0 renterId nextMonth nextYear monthlyRent
     (loadIfNotCached t0 renterId prevMonth prevYear monthlyRent w)).

End BillCache.

(** ** The combined read as simple-schema.sql defines it *)

Module SimpleSchema.
Import Store.

(** [get_bill_with_details] of simple-schema.sql, the script the deployment
    notes tell to run.  It differs from the optimised definition in its main
    SELECT: the bill is CROSS JOINed with the CTE [previous_readings] (and
    with the two aggregates, which always have one row), so the SELECT has a
    row only when the current bill and the preceding one both exist. *)
Definition get_bill_with_details (db : Db) (p_renter_id p_month p_year : Z)
    (p_user_id : uuid) : option BillWithDetails :=
  let pr := previous_readings_cte db p_renter_id p_month p_year p_user_id in
  let v_result :=
    bd ← select_bill db p_renter_id p_month p_year p_user_id;
    pr ← pr;
    Some {| bill := Some (bill_json p_renter_id p_month p_year bd);
            expenses := children_agg (bill_id bd) (additional_expenses db);
            payments := children_agg (bill_id bd) (bill_payments db);
            previous_readings :=
              {| electricity_final := coalesce0 (Some (electricity_final pr));
                 motor_final := coalesce0 (Some (motor_final pr)) |} |} in
  let v_result :=
    match v_result with
    | Some r => Some r
    | None =>
        pr ← pr;
        Some {| bill := None; expenses := []; payments := [];
                previous_readings :=
                  {| electricity_final := coalesce0 (Some (electricity_final pr));
                     motor_final := coalesce0 (Some (motor_final pr)) |} |}
    end in
  match v_result with
  | Some r => Some r
  | None =>
      Some {| bill := None; expenses := []; payments := [];
              previous_readings := zero_readings |}
  end.

End SimpleSchema.

(** ** More of the performance monitor *)

Module MonitorQueries.
Import Monitor.

(** [getSlowQueries] *)
Definition getSlowQueries (m : PerformanceMonitor) : list QueryMetrics :=
  filter (λ log, isSlow log = true) (queryLogs m).

(** [clear] *)
Definition clear (m : PerformanceMonitor) : PerformanceMonitor := mkMonitor [] 0 0.

(** The entry [logQuery] builds for a call: name, time, error text. *)
Definition metrics (c : string * Z * option string) : QueryMetrics :=
  mkQueryMetrics c.1.1 c.1.2 c.2 (bool_decide (SLOW_QUERY_THRESHOLD < c.1.2)).

(** A run of [logQuery] calls, oldest first: name, time, error text. *)
Definition log_all (calls : list (string * Z * option string)) (m : PerformanceMonitor)
    : PerformanceMonitor :=
  foldl (λ m c, logQuery c.1.1 c.1.2 c.2 m) m calls.

End MonitorQueries.

(** ** Vocabulary for cache keys *)

Module Keys.

Definition is_digit (c : Ascii.ascii) : Prop := is_Some (Ascii.is_nat c).

(** All characters are decimal digits. *)
Fixpoint digits (s : string) : Prop :=
  match s with
  | EmptyString => True
  | String c s' => is_digit c ∧ digits s'
  end.

End Keys.

(** ** Vocabulary for reading back what was saved *)

Module RoundTrip.
Import Store.

(** The fetched children [l] of bill [v_bill_id] are the incoming items [p],
    item [i] under the identity [ids !! i]: every fetched child is such an
    item, every item is fetched, and there are as many of one as of the
    other. *)
Definition returns_items {F} (v_bill_id : uuid) (l : list (Child F))
    (p : list (Child F)) (ids : list uuid) : Prop :=
  length l = length p ∧
  (∀ c, c ∈ l →
        child_bill_id c = v_bill_id ∧
        ∃ i v k, ids !! i = Some k ∧ p !! i = Some v ∧
                 child_id c = Some k ∧ child_fields c = child_fields v) ∧
  (∀ i v k, ids !! i = Some k → p !! i = Some v →
            ∃ c, c ∈ l ∧ child_id c = Some k ∧ child_fields c = child_fields v).

End RoundTrip.

(** ** Vocabulary for the service calls *)

Module Calls.
Import Async Store Data.

(** The identity the upsert of [save_bill_complete] returns on [d]: that of
    the row stored under the key, or else the next identity drawn. *)
Definition expected_bill_id (d : Db) (p_bill_data : MonthlyBill) : uuid :=
  match monthly_bills d !! bill_key p_bill_data with
  | Some row => bill_id row
  | None => gen_random_uuid d (drawn d)
  end.

(** The [j]-th exchange from now is answered, after the 5000 ms bound. *)
Definition answered_late (w : World) (j : nat) : Prop :=
  ∃ ms, latency w (round_trips w + j)%nat = Some ms ∧ 5000 < ms.

(** The [j]-th exchange from now is answered after [ms], short of the
    bound. *)
Definition answered_in_time (w : World) (j : nat) (ms : Z) : Prop :=
  latency w (round_trips w + j)%nat = Some ms ∧ ms < 5000.


(** The wrapped operation rejected at attempt [j]. *)
Definition rejected_at {W T} (queryFn : task W T) (w : W) (j : nat) : Prop :=
  ∃ ms e, outcome queryFn w j = Settles ms (Rejected e).

End Calls.

(** ** Sample data *)

Module Sample.
Import Store Monitor Data.

Definition fields_with (rent : Z) (electricity motor : option Z) : BillFields :=
  {| rent_amount := rent;
     electricity_enabled := true;
     electricity_initial_reading := Some 480;
     electricity_final_reading := electricity;
     electricity_multiplier := Some 900;
     electricity_reading_date := Some "2025-12-28";
     electricity_amount := 108000;
     motor_enabled := true;
     motor_initial_reading := Some 200;
     motor_final_reading := motor;
     motor_multiplier := Some 900;
     motor_number_of_people := Some 2;
     motor_reading_date := Some "2025-12-28";
     motor_amount := 22500;
     water_enabled := false;
     water_amount := 0;
     maintenance_enabled := false;
     maintenance_amount := 0;
     total_amount := 730500;
     total_payments := 500000;
     pending_amount := 230500 |}.

(** Tenant 7 of user-1 has a bill for December 2025 with final readings 600
    and 250, two expenses and one payment. *)
Definition december : BillRow :=
  mkBillRow "bill-2025-12" (Some "user-1") (fields_with 600000 (Some 600) (Some 250)) 100 100.

Definition repair : ExpenseFields := mkExpenseFields "Repair" 50000 "2025-12-10".
Definition paint : ExpenseFields := mkExpenseFields "Paint" 20000 "2025-12-12".
Definition plumbing : ExpenseFields := mkExpenseFields "Plumbing" 35000 "2025-12-20".
Definition advance : PaymentFields := mkPaymentFields 500000 "2025-12-05" cash None.

Definition store : Db :=
  {| renters := {[ 7 := mkRenter (Some "user-1") ]};
     monthly_bills := {[ (7, 12, 2025) := december ]};
     additional_expenses :=
       {[ "exp-1" := mkChildRow "bill-2025-12" repair 110;
          "exp-2" := mkChildRow "bill-2025-12" paint 120 ]};
     bill_payments := {[ "pay-1" := mkChildRow "bill-2025-12" advance 130 ]};
     now := 1000;
     gen_random_uuid := λ n, "uuid-" +:+ pretty n;
     drawn := 0 |}.

Definition december_json : MonthlyBill :=
  {| id := None; user_id := None; renter_id := 7; month := 12; year := 2025;
     fields := fields_with 650000 (Some 600) (Some 250);
     bill_json_created_at := None; bill_json_updated_at := None |}.

Definition expense (k : option string) (f : ExpenseFields) : AdditionalExpense :=
  mkChild k "bill-2025-12" f None.

Definition payment (k : option string) (f : PaymentFields) : BillPayment :=
  mkChild k "bill-2025-12" f None.

(** user-1 is signed in; every exchange is answered after [delay]. *)
Definition world (rpc : bool) (delay : option Z) : World :=
  {| session := Some "user-1";
     rpc_deployed := rpc;
     db := store;
     latency := λ _, delay;
     round_trips := 0;
     performanceMonitor := mkMonitor [] 0 0;
     cache := ∅ |}.

(** January 2026 as it was cached at time 0 out of the carry-forward
    readings. *)
Definition january_entry : CacheEntry :=
  {| data :=
       {| rentAmount := 600000;
          electricityEnabled := false;
          electricityData := mkElectricityData 600 600 900 (DateAt 0);
          motorEnabled := false;
          motorData := mkMotorData 250 250 900 2 (DateAt 0);
          waterEnabled := false;
          waterAmount := 0;
          maintenanceEnabled := false;
          maintenanceAmount := 0;
          additionalExpenses := [];
          Data.payments := [] |};
     timestamp := 0;
     isStale := false |}.

Definition world_with_january : World :=
  {| session := Some "user-1";
     rpc_deployed := true;
     db := store;
     latency := λ _, Some 120;
     round_trips := 0;
     performanceMonitor := mkMonitor [] 0 0;
     cache := {[ "7-2026-1" := january_entry ]} |}.

(** An operation on a counter that rejects twice, then succeeds. *)
Definition flaky : Async.task nat nat :=
  λ n, (if decide (n < 2)%nat
        then Async.Settles 10 (Async.Rejected (Async.mkError "connection reset"))
        else Async.Settles 10 (Async.Resolved n), S n).

(** An operation that always rejects. *)
Definition broken : Async.task nat nat :=
  λ n, (Async.Settles 10 (Async.Rejected (Async.mkError ("failure " +:+ pretty n))), S n).

End Sample.

(** ** Further scenarios *)

Module Scenarios.
Import Async Store Monitor Data.

(** An operation on a counter that rejects once, then never settles. *)
Definition stalling : task nat nat :=
  λ n, (if decide (n = 0)%nat
        then Settles 10 (Rejected (mkError "connection reset"))
        else Pending, S n).

(** Tenant 7 with a second bill, for November 2025, and one expense on it. *)
Definition november : BillRow :=
  mkBillRow "bill-2025-11" (Some "user-1")
    (Sample.fields_with 600000 (Some 480) (Some 200)) 50 50.

Definition two_bills : Db :=
  {| renters := renters Sample.store;
     monthly_bills := <[ (7, 11, 2025) := november ]> (monthly_bills Sample.store);
     additional_expenses :=
       <[ "exp-0" := mkChildRow "bill-2025-11" Sample.repair 60 ]>
         (additional_expenses Sample.store);
     bill_payments := bill_payments Sample.store;
     now := 1000;
     gen_random_uuid := gen_random_uuid Sample.store;
     drawn := 0 |}.

(** A bill for tenant 99, whom the store does not know. *)
Definition stranger_json : MonthlyBill :=
  {| id := None; user_id := None; renter_id := 99; month := 12; year := 2025;
     fields := Sample.fields_with 650000 (Some 600) (Some 250);
     bill_json_created_at := None; bill_json_updated_at := None |}.

(** The lists sent with December 2025: the repair expense rewritten as
    plumbing, a new expense, the paint expense dropped; the one payment. *)
Definition incoming_expenses : list AdditionalExpense :=
  [Sample.expense (Some "exp-1") Sample.plumbing; Sample.expense None Sample.paint].

Definition incoming_payments : list BillPayment :=
  [Sample.payment (Some "pay-1") Sample.advance].


(** Nobody is signed in; every exchange is answered after 120 ms. *)
Definition signed_out : World :=
  {| session := None;
     rpc_deployed := true;
     db := Sample.store;
     latency := λ _, Some 120;
     round_trips := 0;
     performanceMonitor := mkMonitor [] 0 0;
     cache := ∅ |}.

End Scenarios.

(** * Properties *)

(** ** The retry wrapper *)

Section RetryFacts.
Import Async.

Lemma pretty_maxRetries : pretty maxRetries = "2".
Proof. reflexivity. Qed.

(** One step of the loop, [i] invocations into the run, by the outcome of the
    next invocation. *)
Lemma attempts_step {W T} (queryFn : task W T) context remaining attempt lastError elapsed w i :
  attempts queryFn context (S remaining) attempt lastError elapsed
    (world_after queryFn w i) =
  match outcome queryFn w i with
  | Pending => (Pending, world_after queryFn w (S i))
  | Settles ms (Resolved v) =>
      (Settles (elapsed + ms) (Resolved v), world_after queryFn w (S i))
  | Settles ms (Rejected e) =>
      attempts queryFn context remaining (S attempt) (Some e)
        (elapsed + ms + (if (attempt <? maxRetries)%nat
                         then baseDelay * 2 ^ Z.of_nat attempt else 0))
        (world_after queryFn w (S i))
  end.
Proof.
  unfold outcome.
  change (world_after queryFn w (S i)) with (snd (queryFn (world_after queryFn w i))).
  generalize (world_after queryFn w i). intros w0.
  simpl. destruct (queryFn w0) as [p w']. simpl.
  destruct p as [|ms [v|e]]; reflexivity.
Qed.

Lemma world_after_counting {W T} (queryFn : task W T) w n k :
  world_after (counting queryFn) (w, n) k = (world_after queryFn w k, (k + n)%nat).
Proof.
  induction k as [|k IH]; [reflexivity|].
  simpl. rewrite IH. simpl. now destruct (queryFn (world_after queryFn w k)).
Qed.

Lemma outcome_counting {W T} (queryFn : task W T) w n k :
  outcome (counting queryFn) (w, n) k = outcome queryFn w k.
Proof.
  unfold outcome. rewrite world_after_counting. simpl.
  now destruct (queryFn (world_after queryFn w k)).
Qed.

Lemma world_after_timeout {W T} (queryFn : task W T) timeoutMs w k :
  world_after (queryWithTimeout queryFn timeoutMs) w k = world_after queryFn w k.
Proof.
  induction k as [|k IH]; [reflexivity|].
  simpl. rewrite IH. unfold queryWithTimeout.
  now destruct (queryFn (world_after queryFn w k)).
Qed.

Lemma outcome_timeout {W T} (queryFn : task W T) timeoutMs w k :
  outcome (queryWithTimeout queryFn timeoutMs) w k = timed timeoutMs (outcome queryFn w k).
Proof.
  unfold outcome. rewrite world_after_timeout. unfold queryWithTimeout.
  now destruct (queryFn (world_after queryFn w k)).
Qed.

Ltac retry_step := rewrite attempts_step, ?outcome_counting, ?outcome_timeout.

(** C3.  [RetryableQuery.execute] invokes the wrapped operation at most
    [maxRetries + 1 = 3] times, one after the other.  The first attempt that
    succeeds ends the loop: its value is the result and no further attempt is
    made.  When all three attempts reject, exactly three attempts are made and
    the wrapper rejects with an error whose message names the operation
    ([context]) and the message of the last rejection; the two back-off
    sleeps last 1000 and 2000 ms. *)
Theorem execute_attempt_budget {W T} (queryFn : task W T) context w :
  let run := execute (counting queryFn) context (w, 0%nat) in
  let calls := run.2.2 in
  (calls ≤ S maxRetries)%nat ∧
  run.2.1 = world_after queryFn w calls ∧
  (∀ k ms v,
     (k ≤ maxRetries)%nat →
     (∀ j, (j < k)%nat → ∃ ms' e, outcome queryFn w j = Settles ms' (Rejected e)) →
     outcome queryFn w k = Settles ms (Resolved v) →
     calls = S k ∧ ∃ total, run.1 = Settles total (Resolved v)) ∧
  (∀ ms0 e0 ms1 e1 ms2 e2,
     outcome queryFn w 0 = Settles ms0 (Rejected e0) →
     outcome queryFn w 1 = Settles ms1 (Rejected e1) →
     outcome queryFn w 2 = Settles ms2 (Rejected e2) →
     calls = 3%nat ∧
     run.1 = Settles (ms0 + 1000 + ms1 + 2000 + ms2)
               (Rejected (mkError (context +:+ " failed after 2 retries: " +:+ message e2)))).
Proof.
  unfold execute, maxRetries. cbv zeta.
  change (w, 0%nat) with (world_after (counting queryFn) (w, 0%nat) 0).
  retry_step.
  destruct (outcome queryFn w 0) as [|ms0 [v0|e0]] eqn:H0; [rewrite world_after_counting; simpl..|].
  - split_and!; [lia|reflexivity| |intros; discriminate].
    intros [|k] ms v Hk Hprev Hk'; [congruence|].
    destruct (Hprev 0%nat) as (? & ? & ?); [lia|congruence].
  - split_and!; [lia|reflexivity| |intros; discriminate].
    intros [|k] ms v Hk Hprev Hk'.
    + rewrite H0 in Hk'. injection Hk' as -> ->. eauto.
    + destruct (Hprev 0%nat) as (? & ? & ?); [lia|congruence].
  - retry_step.
    destruct (outcome queryFn w 1) as [|ms1 [v1|e1]] eqn:H1; [rewrite world_after_counting; simpl..|].
    + split_and!; [lia|reflexivity| |intros; discriminate].
      intros [|[|k]] ms v Hk Hprev Hk'; [congruence..|].
      destruct (Hprev 1%nat) as (? & ? & ?); [lia|congruence].
    + split_and!; [lia|reflexivity| |intros; discriminate].
      intros [|[|k]] ms v Hk Hprev Hk'; [congruence| |].
      * rewrite H1 in Hk'. injection Hk' as -> ->. eauto.
      * destruct (Hprev 1%nat) as (? & ? & ?); [lia|congruence].
    + retry_step.
      destruct (outcome queryFn w 2) as [|ms2 [v2|e2]] eqn:H2; rewrite world_after_counting; simpl.
      * split_and!; [lia|reflexivity| |intros; discriminate].
        intros [|[|[|k]]] ms v Hk Hprev Hk'; [congruence..|lia].
      * split_and!; [lia|reflexivity| |intros; discriminate].
        intros [|[|[|k]]] ms v Hk Hprev Hk'; [congruence..| |lia].
        rewrite H2 in Hk'. injection Hk' as -> ->. eauto.
      * split_and!; [lia|reflexivity| |].
        -- intros [|[|[|k]]] ms v Hk Hprev Hk'; [congruence..|lia].
        -- intros ms0' e0' ms1' e1' ms2' e2' E0 E1 E2.
           injection E0 as -> ->. injection E1 as -> ->. injection E2 as -> ->.
           split; [reflexivity|].
           unfold exhausted, baseDelay. simpl.
           f_equal. lia.
Qed.

Lemma timed_settles {T} timeoutMs (p : promise T) :
  ∃ ms s, timed timeoutMs p = Settles ms s ∧ ms ≤ timeoutMs.
Proof.
  destruct p as [|ms s]; simpl; [eauto with lia|].
  destruct (Z.leb_spec ms timeoutMs); eauto with lia.
Qed.

Lemma timed_late {T} timeoutMs (p : promise T) :
  late timeoutMs p → timed timeoutMs p = Settles timeoutMs (Rejected timeout_error).
Proof.
  destruct p as [|ms s]; simpl; [reflexivity|].
  intros Hlate. destruct (Z.leb_spec ms timeoutMs); [lia|reflexivity].
Qed.

Lemma queryWithTimeout_settles {W T} (queryFn : task W T) timeoutMs w :
  ∃ ms s, (queryWithTimeout queryFn timeoutMs w).1 = Settles ms s ∧ ms ≤ timeoutMs.
Proof.
  unfold queryWithTimeout. destruct (queryFn w) as [p w']. apply timed_settles.
Qed.

Lemma queryWithTimeout_late {W T} (queryFn : task W T) timeoutMs w :
  late timeoutMs (queryFn w).1 →
  (queryWithTimeout queryFn timeoutMs w).1 = Settles timeoutMs (Rejected timeout_error).
Proof.
  unfold queryWithTimeout. destruct (queryFn w) as [p w']. apply timed_late.
Qed.

(** The retry loop over timed attempts never hangs: it is over within three
    timeouts and the two back-off sleeps. *)
Lemma execute_timed_settles {W T} (queryFn : task W T) timeoutMs context w :
  0 ≤ timeoutMs →
  ∃ total s,
    (execute (queryWithTimeout queryFn timeoutMs) context w).1 = Settles total s ∧
    total ≤ 3 * timeoutMs + 3000.
Proof.
  intros Hpos. unfold execute, maxRetries.
  change w with (world_after (queryWithTimeout queryFn timeoutMs) w 0) at 1.
  retry_step.
  destruct (timed_settles timeoutMs (outcome queryFn w 0)) as (ms0 & [v0|e0] & -> & L0);
    [simpl; eexists _, _; split; [reflexivity|lia]|].
  retry_step.
  destruct (timed_settles timeoutMs (outcome queryFn w 1)) as (ms1 & [v1|e1] & -> & L1);
    [unfold baseDelay; simpl; eexists _, _; split; [reflexivity|lia]|].
  retry_step.
  destruct (timed_settles timeoutMs (outcome queryFn w 2)) as (ms2 & [v2|e2] & -> & L2);
    unfold baseDelay; simpl; eexists _, _; (split; [reflexivity|lia]).
Qed.

(** Three late attempts in a row: three timeouts, two sleeps, and the wrapped
    error carries the timeout message. *)
Lemma execute_timed_all_late {W T} (queryFn : task W T) timeoutMs context w :
  (∀ j, (j ≤ maxRetries)%nat → late timeoutMs (outcome queryFn w j)) →
  (execute (queryWithTimeout queryFn timeoutMs) context w).1 =
    Settles (3 * timeoutMs + 3000)
      (Rejected (mkError (context +:+ " failed after 2 retries: "
                            +:+ "Query timeout - operation took longer than expected"))).
Proof.
  intros Hlate. unfold execute, maxRetries in *.
  change w with (world_after (queryWithTimeout queryFn timeoutMs) w 0) at 1.
  retry_step. rewrite timed_late by (apply Hlate; lia).
  retry_step. rewrite timed_late by (apply Hlate; lia).
  retry_step. rewrite timed_late by (apply Hlate; lia).
  unfold baseDelay. simpl. f_equal. lia.
Qed.

(** The first attempt answers in time with a value: that value is the
    result, after one attempt. *)
Lemma execute_timed_first {W T} (queryFn : task W T) timeoutMs context w ms v :
  (queryFn w).1 = Settles ms (Resolved v) → ms ≤ timeoutMs →
  execute (queryWithTimeout queryFn timeoutMs) context w
    = (Settles ms (Resolved v), (queryFn w).2).
Proof.
  intros Hq Hms. unfold execute, queryWithTimeout. simpl.
  destruct (queryFn w) as [p w']. simpl in *. subst p. simpl.
  destruct (Z.leb_spec ms timeoutMs); [done|lia].
Qed.

End RetryFacts.

(** ** The reconciliation writer *)

Section ChildFacts.
Import Store.
Context {F : Type} (gen : nat → string) (clock : Z) (b : string).
Implicit Types (p : list (Child F)) (tbl : gmap string (ChildRow F)) (ids : list string).

Lemma attached_update_child tbl k f k' :
  attached b tbl k' → attached b (update_child b k f tbl) k'.
Proof.
  intros (row & Hrow & Hb). unfold update_child.
  destruct (tbl !! k) as [r|] eqn:Hk; [|by exists row].
  case_decide; [|by exists row].
  destruct (decide (k = k')) as [->|Hne].
  - eexists. rewrite lookup_insert_eq. done.
  - exists row. by rewrite lookup_insert_ne.
Qed.

Lemma update_child_lookup_ne tbl k f k' :
  k ≠ k' → update_child b k f tbl !! k' = tbl !! k'.
Proof.
  intros Hne. unfold update_child.
  destruct (tbl !! k) as [r|]; [|done]. case_decide; [|done].
  by rewrite lookup_insert_ne.
Qed.

Lemma update_child_lookup_attached tbl k f row :
  tbl !! k = Some row → monthly_bill_id row = b →
  update_child b k f tbl !! k = Some (mkChildRow b f (created_at row)).
Proof.
  intros Hk Hb. unfold update_child. rewrite Hk.
  rewrite decide_True by done. by rewrite lookup_insert_eq.
Qed.

(** The loop appends one identity per item, in order, whatever the table. *)
Lemma process_children_ids p : ∀ tbl n ids tbl' n' ids',
  process_children gen clock b p tbl n ids = inr (tbl', n', ids') →
  ∃ new, ids' = ids ++ new ∧ length new = length p ∧
    ∀ i v k, p !! i = Some v → assigned_id v = Some k → new !! i = Some k.
Proof.
  induction p as [|v p IH]; intros tbl n ids tbl' n' ids' Hrun; simpl in Hrun.
  - injection Hrun as <- <- <-. exists []. rewrite app_nil_r.
    split_and!; [done..|]. intros i v k Hi. by rewrite lookup_nil in Hi.
  - destruct (assigned_id v) as [k|] eqn:Hv.
    + apply IH in Hrun as (new & -> & Hlen & Hord).
      exists (k :: new). rewrite <- app_assoc. split_and!; [done|simpl; lia|].
      intros [|i] v' k' Hi Hk'; simpl in *; [congruence|eauto].
    + destruct (tbl !! gen n) eqn:Hfresh; [discriminate|].
      apply IH in Hrun as (new & -> & Hlen & Hord).
      exists (gen n :: new). rewrite <- app_assoc. split_and!; [done|simpl; lia|].
      intros [|i] v' k' Hi Hk'; simpl in *; [congruence|eauto].
Qed.

(** The loop on a list whose assigned identities are known to the table. *)
Lemma process_children_known p : ∀ tbl n ids tbl' n' ids',
  process_children gen clock b p tbl n ids = inr (tbl', n', ids') →
  known_children b tbl p →
  ∃ new, ids' = ids ++ new ∧ length new = length p ∧ NoDup new ∧
    (∀ i v k, p !! i = Some v → assigned_id v = Some k → new !! i = Some k) ∧
    (∀ i v g, p !! i = Some v → assigned_id v = None → new !! i = Some g →
              tbl !! g = None) ∧
    (∀ k, k ∉ new → tbl' !! k = tbl !! k) ∧
    (∀ i v k, p !! i = Some v → new !! i = Some k →
              ∃ c, tbl' !! k = Some (mkChildRow b (child_fields v) c)).
Proof.
  induction p as [|v p IH]; intros tbl n ids tbl' n' ids' Hrun [Hnd Hatt];
    simpl in Hrun.
  - injection Hrun as <- <- <-. exists []. rewrite app_nil_r.
    split_and!; [done|done|apply NoDup_nil_2|..|done|];
      intros i v ?; by rewrite lookup_nil.
  - simpl in Hnd, Hatt.
    destruct (assigned_id v) as [k|] eqn:Hv.
    + apply NoDup_cons in Hnd as [Hk Hnd].
      destruct (Hatt k) as (row & Hrow & Hb); [left|].
      apply IH in Hrun as (new & -> & Hlen & Hnew & Hord & Hfresh & Hframe & Hrows).
      2:{ split; [done|]. intros k' Hk'. apply attached_update_child.
          apply Hatt. by right. }
      assert (Hknew : k ∉ new).
      { intros Hin. apply list_elem_of_lookup in Hin as [i Hi].
        destruct (lookup_lt_is_Some_2 p i) as [v' Hv'].
        { rewrite <- Hlen. by eapply lookup_lt_Some. }
        destruct (assigned_id v') as [k'|] eqn:Ha.
        - specialize (Hord _ _ _ Hv' Ha). rewrite Hi in Hord. injection Hord as ->.
          apply Hk. apply list_elem_of_omap. exists v'.
          split; [by eapply list_elem_of_lookup_2|done].
        - specialize (Hfresh _ _ _ Hv' Ha Hi).
          by rewrite (update_child_lookup_attached _ _ _ _ Hrow Hb) in Hfresh. }
      exists (k :: new). rewrite <- app_assoc. split_and!.
      * done.
      * simpl; lia.
      * by apply NoDup_cons.
      * intros [|i] v' k' Hi Hk'; simpl in *; [congruence|eauto].
      * intros [|i] v' g Hi Hg Hnewi; simpl in *; [congruence|].
        specialize (Hfresh _ _ _ Hi Hg Hnewi).
        rewrite update_child_lookup_ne in Hfresh; [done|].
        intros ->. apply Hknew. by eapply list_elem_of_lookup_2.
      * intros k' Hk'. apply not_elem_of_cons in Hk' as [Hne Hk'].
        rewrite Hframe by done. by apply update_child_lookup_ne.
      * intros [|i] v' k' Hi Hnewi; simpl in *; [|eauto].
        injection Hi as <-. injection Hnewi as <-.
        rewrite Hframe by done.
        rewrite (update_child_lookup_attached _ _ _ _ Hrow Hb). eauto.
    + destruct (tbl !! gen n) eqn:Hg; [discriminate|].
      apply IH in Hrun as (new & -> & Hlen & Hnew & Hord & Hfresh & Hframe & Hrows).
      2:{ split; [done|]. intros k' Hk'. destruct (Hatt k' Hk') as (row & Hrow & Hb).
          exists row. split; [|done]. rewrite lookup_insert_ne; [done|].
          intros <-. congruence. }
      assert (Hgnew : gen n ∉ new).
      { intros Hin. apply list_elem_of_lookup in Hin as [i Hi].
        destruct (lookup_lt_is_Some_2 p i) as [v' Hv'].
        { rewrite <- Hlen. by eapply lookup_lt_Some. }
        destruct (assigned_id v') as [k'|] eqn:Ha.
        - specialize (Hord _ _ _ Hv' Ha). rewrite Hi in Hord. injection Hord as <-.
          destruct (Hatt (gen n)) as (row & Hrow & _); [|congruence].
          apply list_elem_of_omap. exists v'.
          split; [by eapply list_elem_of_lookup_2|done].
        - specialize (Hfresh _ _ _ Hv' Ha Hi). by rewrite lookup_insert_eq in Hfresh. }
      exists (gen n :: new). rewrite <- app_assoc. split_and!.
      * done.
      * simpl; lia.
      * by apply NoDup_cons.
      * intros [|i] v' k' Hi Hk'; simpl in *; [congruence|eauto].
      * intros [|i] v' g Hi Hg' Hnewi; simpl in *; [congruence|].
        specialize (Hfresh _ _ _ Hi Hg' Hnewi).
        by apply lookup_insert_None in Hfresh as [? _].
      * intros k' Hk'. apply not_elem_of_cons in Hk' as [Hne Hk'].
        rewrite Hframe by done. by rewrite lookup_insert_ne.
      * intros [|i] v' k' Hi Hnewi; simpl in *; [|eauto].
        injection Hi as <-. injection Hnewi as <-.
        rewrite Hframe by done. rewrite lookup_insert_eq. eauto.
Qed.

Lemma delete_not_listed_lookup p tbl k :
  delete_not_listed b p tbl !! k =
  row ← tbl !! k;
  if decide (monthly_bill_id row = b ∧ k ∉ omap assigned_id p) then None else Some row.
Proof.
  unfold delete_not_listed. rewrite map_lookup_filter.
  destruct (tbl !! k) as [row|]; simpl; [|done].
  case_guard as Hg; simpl in Hg; case_decide; done.
Qed.

Lemma delete_not_listed_attached p tbl k :
  k ∈ omap assigned_id p → attached b tbl k → attached b (delete_not_listed b p tbl) k.
Proof.
  intros Hk (row & Hrow & Hb). exists row. split; [|done].
  rewrite delete_not_listed_lookup, Hrow. simpl.
  rewrite decide_False; [done|]. intros [_ ?]. done.
Qed.

(** Deletion followed by the loop, on a list whose assigned identities are
    known to the table. *)
Lemma reconcile_known p tbl n tbl' n' ids :
  process_children gen clock b p (delete_not_listed b p tbl) n [] = inr (tbl', n', ids) →
  known_children b tbl p →
  reconciled b tbl tbl' p ids.
Proof.
  intros Hrun [Hnd Hatt].
  apply process_children_known in Hrun
    as (new & -> & Hlen & Hnew & Hord & Hfresh & Hframe & Hrows).
  2:{ split; [done|]. intros k Hk. by apply delete_not_listed_attached, Hatt. }
  simpl. 
  assert (Hlisted : ∀ k, k ∈ omap assigned_id p → k ∈ new).
  { intros k (v & Hv & Hk)%list_elem_of_omap.
    apply list_elem_of_lookup in Hv as [i Hi].
    eapply list_elem_of_lookup_2, Hord; done. }
  split_and!.
  - split_and!; [done..|]. intros k f. split.
    + intros (row & Hrow & Hb & Hf).
      destruct (decide (k ∈ new)) as [Hin|Hout].
      * apply list_elem_of_lookup in Hin as [i Hi].
        destruct (lookup_lt_is_Some_2 p i) as [v Hv].
        { rewrite <- Hlen. by eapply lookup_lt_Some. }
        destruct (Hrows _ _ _ Hv Hi) as [c Hc].
        exists i, v. split_and!; [done..|]. rewrite Hrow in Hc. by injection Hc as ->.
      * rewrite Hframe, delete_not_listed_lookup in Hrow by done.
        destruct (tbl !! k) as [row'|]; simpl in Hrow; [|done].
        case_decide as Hd; [done|]. injection Hrow as ->.
        destruct (decide (k ∈ omap assigned_id p)) as [Hl|Hl]; [by apply Hlisted in Hl|].
        destruct Hd. done.
    + intros (i & v & Hi & Hv & <-).
      destruct (Hrows _ _ _ Hv Hi) as [c Hc]. eauto.
  - done.
  - done.
  - intros k (row & Hrow & Hb) Hl Hout.
    rewrite Hframe, delete_not_listed_lookup, Hrow by done. simpl.
    by rewrite decide_True.
  - intros k row Hrow Hb.
    assert (Hkept : delete_not_listed b p tbl !! k = Some row).
    { rewrite delete_not_listed_lookup, Hrow. simpl.
      rewrite decide_False; [done|]. intros [? _]. done. }
    rewrite Hframe; [done|]. intros Hin.
    apply list_elem_of_lookup in Hin as [i Hi].
    destruct (lookup_lt_is_Some_2 p i) as [v Hv].
    { rewrite <- Hlen. by eapply lookup_lt_Some. }
    destruct (assigned_id v) as [k'|] eqn:Ha.
    + specialize (Hord _ _ _ Hv Ha). rewrite Hi in Hord. injection Hord as ->.
      destruct (Hatt k') as (row' & Hrow' & Hb').
      { apply list_elem_of_omap. exists v. split; [by eapply list_elem_of_lookup_2|done]. }
      congruence.
    + specialize (Hfresh _ _ _ Hv Ha Hi). congruence.
Qed.

Lemma last_fields_cases k p :
  (∀ d, last_fields k p d = d) ∨ (∃ c, ∀ d, last_fields k p d = c).
Proof.
  unfold last_fields. induction p as [|v p IH]; simpl; [by left|].
  destruct IH as [IH|[c IH]].
  - case_decide; [right; eexists; intros d|left; intros d]; by rewrite IH.
  - right. exists c. intros d. by rewrite IH.
Qed.

Lemma last_fields_idemp k p d : last_fields k p (last_fields k p d) = last_fields k p d.
Proof. destruct (last_fields_cases k p) as [H|[c H]]; by rewrite !H. Qed.

(** On a list of assigned items the loop draws nothing, cannot fail, returns
    the incoming identities and rewrites rows in place. *)
Lemma process_children_assigned p : ∀ tbl n ids,
  Forall (λ v, is_Some (assigned_id v)) p →
  ∃ tbl', process_children gen clock b p tbl n ids
            = inr (tbl', n, ids ++ omap assigned_id p) ∧
          ∀ k, tbl' !! k = rewritten b p k <$> tbl !! k.
Proof.
  induction p as [|v p IH]; intros tbl n ids Hall; simpl.
  - exists tbl. rewrite app_nil_r. split; [done|]. intros k.
    unfold rewritten, last_fields. simpl.
    destruct (tbl !! k) as [[bid c t]|]; simpl; [|done].
    case_decide; simpl in *; by subst.
  - apply Forall_cons in Hall as [[k0 Hv] Hall]. rewrite Hv.
    destruct (IH (update_child b k0 (child_fields v) tbl) n (ids ++ [k0]) Hall)
      as (tbl' & -> & Hlook).
    exists tbl'. rewrite <- app_assoc. split; [done|]. intros k. rewrite Hlook.
    destruct (decide (k0 = k)) as [->|Hne].
    + unfold update_child.
      destruct (tbl !! k) as [row|] eqn:Hrow; simpl; [|by rewrite Hrow].
      destruct (decide (monthly_bill_id row = b)) as [Hb|Hb].
      * rewrite lookup_insert_eq. simpl. f_equal.
        unfold rewritten, last_fields. simpl.
        rewrite Hv. by rewrite !decide_True.
      * rewrite Hrow. simpl. f_equal. unfold rewritten. by rewrite !decide_False.
    + rewrite update_child_lookup_ne by done.
      destruct (tbl !! k) as [row|]; simpl; [|done]. f_equal.
      unfold rewritten, last_fields. simpl. rewrite Hv.
      rewrite (decide_False (P := Some k0 = Some k)); [done|congruence].
Qed.

Lemma rewritten_bill p k row :
  monthly_bill_id (rewritten b p k row) = b ↔ monthly_bill_id row = b.
Proof. unfold rewritten. case_decide; simpl; naive_solver. Qed.

(** Running deletion and loop a second time on their own result changes
    nothing, and returns the same identities. *)
Lemma reconcile_assigned_twice p tbl n tbl' n' ids m :
  Forall (λ v, is_Some (assigned_id v)) p →
  process_children gen clock b p (delete_not_listed b p tbl) n [] = inr (tbl', n', ids) →
  process_children gen clock b p (delete_not_listed b p tbl') m [] = inr (tbl', m, ids).
Proof.
  intros Hall Hrun.
  destruct (process_children_assigned p (delete_not_listed b p tbl) n [] Hall)
    as (tbl1 & Hrun1 & Hlook1).
  rewrite Hrun1 in Hrun. injection Hrun as -> -> <-.
  destruct (process_children_assigned p (delete_not_listed b p tbl') m [] Hall)
    as (tbl2 & Hrun2 & Hlook2).
  rewrite Hrun2. do 2 f_equal. f_equal.
  apply map_eq. intros k. rewrite Hlook2, delete_not_listed_lookup, Hlook1.
  rewrite delete_not_listed_lookup.
  destruct (tbl !! k) as [row|]; simpl; [|done].
  destruct (decide (monthly_bill_id row = b ∧ k ∉ omap assigned_id p)) as [Hd|Hd];
    simpl; [done|].
  rewrite decide_False.
  2:{ rewrite rewritten_bill. done. }
  simpl. f_equal. unfold rewritten.
  destruct (decide (monthly_bill_id row = b)) as [Hb|Hb]; simpl.
  - rewrite decide_True by done. by rewrite last_fields_idemp.
  - by rewrite decide_False.
Qed.

End ChildFacts.

Section WriterFacts.
Import Store.

Lemma upsert_bill_stored p_bill_data p_user_id db v_bill_id bills n :
  upsert_bill p_bill_data p_user_id db = inr (v_bill_id, bills, n) →
  ∃ row, bills !! bill_key p_bill_data = Some row ∧
         bill_id row = v_bill_id ∧ bill_fields row = fields p_bill_data.
Proof.
  unfold upsert_bill, bill_key.
  destruct (monthly_bills db !! _) as [row|].
  - intros [= <- <- <-]. eexists. rewrite lookup_insert_eq. done.
  - repeat case_decide; intros [= <- <- <-].
    eexists. rewrite lookup_insert_eq. done.
Qed.

(** C1 (amended).  When [save_bill_complete] returns success and every
    assigned identity in the incoming lists names a child row the store holds
    for the resulting bill, no identity twice in a list, then: the bill row
    carries the incoming fields; the child rows of the bill are exactly the
    incoming items, item [i] under the [i]-th returned identity, one identity
    per item and in input order; an assigned item keeps its identity and has
    its fields overwritten; an unassigned item is inserted under an identity
    that no surviving row had; a row of the bill whose identity is neither
    listed nor issued anew is gone; rows of other bills are untouched.  The
    same for payments. *)
Theorem save_bill_complete_reconciles p_bill_data p_expenses p_payments p_user_id
    db res db' :
  save_bill_complete p_bill_data p_expenses p_payments p_user_id db = inr (res, db') →
  known_children (result_bill_id res) (additional_expenses db) p_expenses →
  known_children (result_bill_id res) (bill_payments db) p_payments →
  success res = true ∧
  (∃ row, monthly_bills db' !! bill_key p_bill_data = Some row ∧
          bill_id row = result_bill_id res ∧ bill_fields row = fields p_bill_data) ∧
  reconciled (result_bill_id res) (additional_expenses db) (additional_expenses db')
             p_expenses (expense_ids res) ∧
  reconciled (result_bill_id res) (bill_payments db) (bill_payments db')
             p_payments (payment_ids res).
Proof.
  unfold save_bill_complete.
  destruct (upsert_bill _ _ _) as [e|[[v_bill_id bills] n0]] eqn:Hup; [discriminate|].
  destruct (process_children _ _ _ p_expenses _ _ _)
    as [e|[[exps' n1] v_expense_ids]] eqn:He; [discriminate|].
  destruct (process_children _ _ _ p_payments _ _ _)
    as [e|[[pays' n2] v_payment_ids]] eqn:Hp; [discriminate|].
  intros [= <- <-]. simpl. intros Hke Hkp. split_and!.
  - done.
  - by eapply upsert_bill_stored.
  - by eapply reconcile_known.
  - by eapply reconcile_known.
Qed.

(** C4.  Saving an aggregate whose children all carry assigned identities,
    then saving the same aggregate again: the second save succeeds and
    returns the same result (bill identity, expense identities, payment
    identities), and leaves both child tables as the first save left them. *)
Theorem save_bill_complete_idempotent p_bill_data p_expenses p_payments p_user_id
    db res db' :
  Forall (λ v, is_Some (assigned_id v)) p_expenses →
  Forall (λ v, is_Some (assigned_id v)) p_payments →
  save_bill_complete p_bill_data p_expenses p_payments p_user_id db = inr (res, db') →
  ∃ db'',
    save_bill_complete p_bill_data p_expenses p_payments p_user_id db' = inr (res, db'') ∧
    additional_expenses db'' = additional_expenses db' ∧
    bill_payments db'' = bill_payments db'.
Proof.
  intros Hexp Hpay. unfold save_bill_complete.
  destruct (upsert_bill _ _ db) as [e|[[v_bill_id bills] n0]] eqn:Hup; [discriminate|].
  destruct (process_children _ _ _ p_expenses _ _ _)
    as [e|[[exps' n1] v_expense_ids]] eqn:He; [discriminate|].
  destruct (process_children _ _ _ p_payments _ _ _)
    as [e|[[pays' n2] v_payment_ids]] eqn:Hp; [discriminate|].
  intros [= <- <-].
  apply upsert_bill_stored in Hup as (row & Hrow & <- & Hfields).
  unfold upsert_bill at 1. simpl. fold (bill_key p_bill_data). rewrite Hrow.
  erewrite (reconcile_assigned_twice _ _ _ p_expenses) by done.
  erewrite (reconcile_assigned_twice _ _ _ p_payments) by done.
  eexists. split_and!; reflexivity.
Qed.

End WriterFacts.

(** ** The aggregate fetcher *)

Section FetcherFacts.
Import Async Store Monitor Data SupabaseService.

(** A value returned by the retry loop is the value of one of its attempts. *)
Lemma execute_resolved {W T} (queryFn : task W T) context w total v :
  (execute queryFn context w).1 = Settles total (Resolved v) →
  ∃ j ms, (j ≤ maxRetries)%nat ∧ outcome queryFn w j = Settles ms (Resolved v).
Proof.
  unfold execute, maxRetries.
  change w with (world_after queryFn w 0) at 1.
  rewrite attempts_step.
  destruct (outcome queryFn w 0) as [|ms0 [v0|e0]] eqn:H0; [done|simpl|].
  { intros [= _ ->]. exists 0%nat, ms0. split; [lia|done]. }
  rewrite attempts_step.
  destruct (outcome queryFn w 1) as [|ms1 [v1|e1]] eqn:H1; [done|simpl|].
  { intros [= _ ->]. exists 1%nat, ms1. split; [lia|done]. }
  rewrite attempts_step.
  destruct (outcome queryFn w 2) as [|ms2 [v2|e2]] eqn:H2; simpl; [done| |done].
  intros [= _ ->]. exists 2%nat, ms2. split; [lia|done].
Qed.

Lemma timed_resolved {T} timeoutMs (p : promise T) ms v :
  timed timeoutMs p = Settles ms (Resolved v) → p = Settles ms (Resolved v).
Proof.
  destruct p as [|ms' s]; simpl; [done|]. by case_match.
Qed.

(** A remote read whose answer does not depend on how many exchanges came
    before it. *)
Section Exchange.
Context {T : Type} (q : World → settled T).
Hypothesis q_stable : ∀ n w, q (with_round_trips n w) = q w.

Lemma world_after_exchange w j :
  world_after (λ w, respond (q w) w) w j
  = with_round_trips (round_trips w + j) (with_round_trips (round_trips w) w).
Proof.
  induction j as [|j IH].
  - destruct w. unfold with_round_trips. simpl. by rewrite Nat.add_0_r.
  - change (world_after ?f w (S j)) with (snd (f (world_after f w j))).
    rewrite IH. unfold respond. simpl. unfold with_round_trips. simpl.
    f_equal. lia.
Qed.

Lemma outcome_exchange w j :
  outcome (λ w, respond (q w) w) w j =
  match latency w (round_trips w + j) with
  | Some ms => Settles ms (q w)
  | None => Pending
  end.
Proof.
  unfold outcome. rewrite world_after_exchange. unfold respond. simpl.
  by rewrite !q_stable.
Qed.

Lemma exchange_resolved timeoutMs context w total v :
  (execute (queryWithTimeout (λ w, respond (q w) w) timeoutMs) context w).1
    = Settles total (Resolved v) →
  q w = Resolved v.
Proof.
  intros (j & ms & _ & Hj)%execute_resolved.
  rewrite outcome_timeout in Hj. apply timed_resolved in Hj.
  rewrite outcome_exchange in Hj. destruct (latency w _); [|done].
  by injection Hj.
Qed.

Lemma exchange_in_time context w ms v :
  answers_in_time w ms → q w = Resolved v →
  (execute (queryWithTimeout (λ w, respond (q w) w) 5000) context w).1
    = Settles ms (Resolved v).
Proof.
  intros [Hms Hlt] Hq.
  rewrite (execute_timed_first _ _ _ _ ms v); [done| |lia].
  unfold respond. simpl. by rewrite Hms, Hq.
Qed.

Lemma exchange_all_late context w :
  (∀ j, (j ≤ maxRetries)%nat → answers_late w j) →
  (execute (queryWithTimeout (λ w, respond (q w) w) 5000) context w).1 =
    Settles 18000
      (Rejected (mkError (context +:+ " failed after 2 retries: "
                            +:+ "Query timeout - operation took longer than expected"))).
Proof.
  intros Hlate. apply (execute_timed_all_late _ 5000).
  intros j Hj. rewrite outcome_exchange. specialize (Hlate j Hj).
  unfold answers_late in Hlate. by destruct (latency w _).
Qed.

End Exchange.

Lemma getBillWithDetails_query_stable renterId month year n w :
  getBillWithDetails_query renterId month year (with_round_trips n w)
  = getBillWithDetails_query renterId month year w.
Proof. reflexivity. Qed.

(** What [trackQueryPerformance] and the outer [catch] leave of a result. *)
Lemma tracked_rethrow_fst {T} name prefix (queryFn : task World T) w :
  (trackQueryPerformance name (rethrow prefix queryFn) w).1 =
  match (queryFn w).1 with
  | Settles ms (Rejected e) => Settles ms (Rejected (mkError (prefix +:+ message e)))
  | p => p
  end.
Proof.
  unfold trackQueryPerformance, rethrow. destruct (queryFn w) as [p w']. simpl.
  by destruct p as [|ms [v|e]].
Qed.

(** A value returned by [getBillWithDetails] is what the query body computes
    on the world the call started in. *)
Lemma getBillWithDetails_resolved renterId month year w total d :
  (getBillWithDetails renterId month year w).1 = Settles total (Resolved d) →
  getBillWithDetails_query renterId month year w = Resolved d.
Proof.
  unfold getBillWithDetails. rewrite tracked_rethrow_fst.
  destruct (execute _ _ w).1 as [|ms [v|e]] eqn:He; [done| |done].
  intros [= -> ->].
  by apply (exchange_resolved _ (getBillWithDetails_query_stable renterId month year))
    in He.
Qed.

Lemma getBillWithDetails_in_time renterId month year w ms d :
  answers_in_time w ms →
  getBillWithDetails_query renterId month year w = Resolved d →
  (getBillWithDetails renterId month year w).1 = Settles ms (Resolved d).
Proof.
  intros Hms Hq. unfold getBillWithDetails. rewrite tracked_rethrow_fst.
  by rewrite (exchange_in_time _ _ _ ms d).
Qed.


(** The decomposed path steps back one month the way the stored procedure
    does. *)
Lemma getPreviousMonthBill_period renterId month year w :
  getPreviousMonthBill renterId month year w =
  getMonthlyBill renterId (previous_period month year).1 (previous_period month year).2 w.
Proof.
  unfold getPreviousMonthBill, previous_period.
  destruct (decide (month = 1)) as [->|Hne]; simpl; [done|].
  rewrite decide_False by lia. done.
Qed.










End FetcherFacts.

(** ** The bill cache *)

Section StringFacts.

Lemma append_nil (t : string) : "" +:+ t = t.
Proof. reflexivity. Qed.

Lemma append_cons c (s t : string) : String c s +:+ t = String c (s +:+ t).
Proof. reflexivity. Qed.

Lemma append_assoc (s1 s2 s3 : string) : (s1 +:+ s2) +:+ s3 = s1 +:+ s2 +:+ s3.
Proof.
  induction s1 as [|c s1 IH]; [by rewrite !append_nil|].
  rewrite !append_cons. by f_equal.
Qed.

Lemma length_append (s1 s2 : string) :
  String.length (s1 +:+ s2) = (String.length s1 + String.length s2)%nat.
Proof.
  induction s1 as [|c s1 IH]; [by rewrite append_nil|].
  rewrite append_cons. simpl. by f_equal.
Qed.

(** Two strings that are equal end in the same characters. *)
Lemma append_suffix_eq (s1 s2 t1 t2 : string) :
  String.length t1 = String.length t2 → s1 +:+ t1 = s2 +:+ t2 → t1 = t2.
Proof.
  intros Hlen. revert s2.
  induction s1 as [|c s1 IH]; intros [|c' s2] Heq;
    rewrite ?append_nil, ?append_cons in Heq.
  - done.
  - apply (f_equal String.length) in Heq. simpl in Heq. rewrite length_append in Heq. lia.
  - apply (f_equal String.length) in Heq. simpl in Heq. rewrite length_append in Heq. lia.
  - injection Heq as _ Heq. eauto.
Qed.

End StringFacts.

Section CacheFacts.
Import Async Store Monitor Data SupabaseService BillCache.

(** The keys of the two months next to a month differ. *)
Lemma adjacent_keys_differ renterId month year :
  getCacheKey renterId (adjacent month year).1.1 (adjacent month year).1.2
  ≠ getCacheKey renterId (adjacent month year).2.1 (adjacent month year).2.2.
Proof.
  unfold adjacent, getCacheKey. simpl.
  destruct (decide (month = 1)) as [->|H1]; [|destruct (decide (month = 12)) as [->|H12]].
  - rewrite decide_False by lia.
    change (pretty 12) with "12". change (pretty (1 + 1)) with "2".
    intros Heq. rewrite <- !append_assoc in Heq.
    rewrite (append_assoc _ "-" "2") in Heq.
    apply append_suffix_eq in Heq; [|reflexivity].
    vm_compute in Heq. discriminate.
  - change (pretty (12 - 1)) with "11". change (pretty 1) with "1".
    intros Heq. rewrite <- !append_assoc in Heq.
    rewrite (append_assoc _ "-" "1") in Heq.
    apply append_suffix_eq in Heq; [|reflexivity].
    vm_compute in Heq. discriminate.
  - intros Heq. do 4 apply String.app_inj in Heq.
    apply (inj pretty) in Heq. lia.
Qed.

(** C10.  [isStale] answers [false] for a key that has no entry: one that is
    simply not in the map (never set), one just removed by [invalidate], and
    any key after [clear]. *)
Theorem isStale_absent t renterId month year w :
  (cache w !! getCacheKey renterId month year = None →
   isStale t renterId month year w = false) ∧
  isStale t renterId month year (invalidate renterId month year w) = false ∧
  isStale t renterId month year (clear w) = false.
Proof.
  unfold isStale, invalidate, clear. simpl. split_and!.
  - by intros ->.
  - by rewrite lookup_delete_eq.
  - by rewrite lookup_empty.
Qed.

(** C8.  An entry written more than [CACHE_TTL] (15 minutes) before the call
    is reported stale by [isStale], and [get] still returns its data; the
    entry stays in the map with its data and time of writing, its [isStale]
    flag now set, and no key leaves or enters the map. *)
Theorem stale_entry_still_served t renterId month year w entry :
  cache w !! getCacheKey renterId month year = Some entry →
  t - timestamp entry > CACHE_TTL →
  let served := get t renterId month year w in
  CACHE_TTL = 900000 ∧
  isStale t renterId month year w = true ∧
  served.1 = Some (data entry) ∧
  cache served.2 !! getCacheKey renterId month year
    = Some (mkCacheEntry (data entry) (timestamp entry) true) ∧
  (∀ k, k ≠ getCacheKey renterId month year → cache served.2 !! k = cache w !! k) ∧
  dom (cache served.2) = dom (cache w).
Proof.
  intros Hentry Hold. unfold get, isStale. rewrite Hentry. simpl.
  rewrite decide_True by done. simpl. split_and!.
  - reflexivity.
  - by rewrite bool_decide_eq_true.
  - done.
  - by rewrite lookup_insert_eq.
  - intros k Hk. by rewrite lookup_insert_ne.
  - apply set_eq. intros k. rewrite !elem_of_dom.
    destruct (decide (k = getCacheKey renterId month year)) as [->|Hk].
    + rewrite lookup_insert_eq, Hentry. split; eauto.
    + by rewrite lookup_insert_ne.
Qed.

(** What the month data loaded for a key depends on. *)
Lemma load_month_data_ext t renterId month year monthlyRent w w' :
  session w' = session w → db w' = db w →
  load_month_data t renterId month year monthlyRent w'
  = load_month_data t renterId month year monthlyRent w.
Proof.
  intros Hs Hd.
  unfold load_month_data, getPreviousMonthBill, getMonthlyBill, getAdditionalExpenses,
    getBillPayments, select_children.
  by rewrite Hs, Hd.
Qed.

(** [loadIfNotCached] on one key: other keys, the store and the session are
    left alone; a cached key keeps its data and costs no exchange; a missing
    key costs one exchange and, once that is answered, holds what was
    loaded. *)
Lemma loadIfNotCached_spec t0 renterId month year monthlyRent w :
  let w' := loadIfNotCached t0 renterId month year monthlyRent w in
  let key := getCacheKey renterId month year in
  (∀ k, k ≠ key → cache w' !! k = cache w !! k) ∧
  session w' = session w ∧ db w' = db w ∧ latency w' = latency w ∧
  match cache w !! key with
  | Some e =>
      round_trips w' = round_trips w ∧
      ∃ e', cache w' !! key = Some e' ∧ data e' = data e ∧ timestamp e' = timestamp e
  | None =>
      round_trips w' = S (round_trips w) ∧
      cache w' !! key =
        (λ ms, mkCacheEntry (load_month_data (t0 + ms) renterId month year monthlyRent w)
                            (t0 + ms) false) <$> latency w (round_trips w)
  end.
Proof.
  unfold loadIfNotCached, get. cbv zeta.
  destruct (cache w !! getCacheKey renterId month year) as [e|] eqn:He.
  - case_decide; simpl.
    + split_and!; try done.
      * intros k Hk. by rewrite lookup_insert_ne.
      * eexists. by rewrite lookup_insert_eq.
    + split_and!; try done. rewrite He. eauto.
  - simpl. destruct (latency w (round_trips w)) as [ms|] eqn:Hl; simpl.
    + split_and!; try done.
      * intros k Hk. by rewrite lookup_insert_ne.
      * by rewrite lookup_insert_eq.
    + split_and!; done.
Qed.

(** C7.  [preload] works on exactly the two adjacent months: the previous one
    is (12, year - 1) for month 1 and (month - 1, year) otherwise, the next one
    (1, year + 1) for month 12 and (month + 1, year) otherwise, so the
    previous month is never 0, the next never 13, and both lie in 1..12 for a
    month in 1..12.  No other cache key changes.  A target already in the
    cache keeps its data and time of writing and costs no exchange with the
    store; a missing target costs one exchange and, once answered, holds the
    loaded month.  The promise [preload] returns resolves whatever happens in
    the loads. *)
Theorem preload_adjacent_months t0 renterId month year monthlyRent w :
  let prevMonth := if decide (month = 1) then 12 else month - 1 in
  let prevYear := if decide (month = 1) then year - 1 else year in
  let nextMonth := if decide (month = 12) then 1 else month + 1 in
  let nextYear := if decide (month = 12) then year + 1 else year in
  let prevKey := getCacheKey renterId prevMonth prevYear in
  let nextKey := getCacheKey renterId nextMonth nextYear in
  let missing := λ k, if cache w !! k is Some _ then 0%nat else 1%nat in
  let run := preload t0 renterId month year monthlyRent w in
  adjacent month year = ((prevMonth, prevYear), (nextMonth, nextYear)) ∧
  prevMonth ≠ 0 ∧ nextMonth ≠ 13 ∧
  (1 ≤ month ≤ 12 → 1 ≤ prevMonth ≤ 12 ∧ 1 ≤ nextMonth ≤ 12) ∧
  run.1 = Resolved () ∧
  (∀ k, k ≠ prevKey → k ≠ nextKey → cache run.2 !! k = cache w !! k) ∧
  (∀ k e, k = prevKey ∨ k = nextKey → cache w !! k = Some e →
          ∃ e', cache run.2 !! k = Some e' ∧ data e' = data e ∧
                timestamp e' = timestamp e) ∧
  (cache w !! prevKey = None →
   cache run.2 !! prevKey =
     (λ ms, mkCacheEntry
              (load_month_data (t0 + ms) renterId prevMonth prevYear monthlyRent w)
              (t0 + ms) false) <$> latency w (round_trips w)) ∧
  (cache w !! nextKey = None →
   cache run.2 !! nextKey =
     (λ ms, mkCacheEntry
              (load_month_data (t0 + ms) renterId nextMonth nextYear monthlyRent w)
              (t0 + ms) false) <$> latency w (round_trips w + missing prevKey)) ∧
  round_trips run.2 = (round_trips w + missing prevKey + missing nextKey)%nat ∧
  db run.2 = db w.
Proof.
  intros prevMonth prevYear nextMonth nextYear prevKey nextKey missing run.
  pose proof (adjacent_keys_differ renterId month year) as Hkeys.
  unfold adjacent in Hkeys. simpl in Hkeys.
  fold prevMonth prevYear nextMonth nextYear in Hkeys. fold prevKey nextKey in Hkeys.
  subst run. unfold preload, adjacent.
  fold prevMonth prevYear nextMonth nextYear. cbv beta iota.
  destruct (loadIfNotCached_spec t0 renterId prevMonth prevYear monthlyRent w)
    as (F1 & S1 & D1 & L1 & C1). fold prevKey in F1, C1.
  set (w1 := loadIfNotCached t0 renterId prevMonth prevYear monthlyRent w) in *.
  destruct (loadIfNotCached_spec t0 renterId nextMonth nextYear monthlyRent w1)
    as (F2 & S2 & D2 & L2 & C2). fold nextKey in F2, C2.
  set (w2 := loadIfNotCached t0 renterId nextMonth nextYear monthlyRent w1) in *.
  cbv zeta in F1, C1, F2, C2. simpl.
  assert (Hnext : cache w1 !! nextKey = cache w !! nextKey) by (apply F1; congruence).
  assert (Hprev : cache w2 !! prevKey = cache w1 !! prevKey) by (by apply F2).
  rewrite Hnext in C2.
  split_and!.
  - done.
  - subst prevMonth. case_decide; lia.
  - subst nextMonth. case_decide; lia.
  - subst prevMonth nextMonth. intros Hm. repeat case_decide; lia.
  - done.
  - intros k Hp Hn. by rewrite F2, F1.
  - intros k e [->| ->] He.
    + rewrite He in C1. destruct C1 as (_ & e' & He' & Hd & Ht).
      exists e'. by rewrite Hprev.
    + rewrite He in C2. by destruct C2 as (_ & e' & He' & Hd & Ht); eauto.
  - intros He. rewrite He in C1. destruct C1 as [_ C1]. by rewrite Hprev.
  - intros He. rewrite He in C2. destruct C2 as [_ C2]. rewrite C2, L1.
    assert (Hrt : round_trips w1 = (round_trips w + missing prevKey)%nat).
    { subst missing. simpl. destruct (cache w !! prevKey); destruct C1 as [-> _]; lia. }
    rewrite Hrt.
    destruct (latency w (round_trips w + missing prevKey)) as [ms|]; simpl; [|done].
    by rewrite (load_month_data_ext _ _ _ _ _ w w1).
  - subst missing. simpl.
    destruct (cache w !! prevKey); destruct C1 as [C1 _];
      destruct (cache w !! nextKey); destruct C2 as [C2 _]; lia.
  - congruence.
Qed.

End CacheFacts.

(** ** Timeouts of the service calls *)

Section TimeoutFacts.
Import Async Store Monitor Data SupabaseService.

Lemma tracked_rethrow_settles {T} name prefix (queryFn : task World T) w bound :
  (∃ total s, (queryFn w).1 = Settles total s ∧ total ≤ bound) →
  ∃ total s, (trackQueryPerformance name (rethrow prefix queryFn) w).1 = Settles total s
             ∧ total ≤ bound.
Proof.
  intros (total & s & Hq & Hle). rewrite tracked_rethrow_fst, Hq.
  destruct s as [v|e]; eauto.
Qed.

(** C9.  Every attempt made through [queryWithTimeout (...) 5000] settles no
    later than 5000 ms after it started; an operation that has not completed
    by then (it answers later, or never) makes the attempt reject with the
    timeout error.  That rejection goes through the retry loop like any
    other, so a wrapped call never hangs: [getBillWithDetails] and
    [saveBillComplete] are over within 3 * 5000 + 1000 + 2000 ms, and three
    late answers in a row end in the wrapped error that carries the timeout
    message. *)
Theorem attempts_bounded_by_timeout :
  (∀ (W T : Type) (queryFn : task W T) w,
     ∃ ms s, (queryWithTimeout queryFn 5000 w).1 = Settles ms s ∧ ms ≤ 5000) ∧
  (∀ (W T : Type) (queryFn : task W T) w,
     late 5000 (queryFn w).1 →
     (queryWithTimeout queryFn 5000 w).1 =
       Settles 5000
         (Rejected (mkError "Query timeout - operation took longer than expected"))) ∧
  (∀ (W T : Type) (queryFn : task W T) context w,
     ∃ total s, (execute (queryWithTimeout queryFn 5000) context w).1 = Settles total s
                ∧ total ≤ 18000) ∧
  (∀ renterId month year w,
     ∃ total s, (getBillWithDetails renterId month year w).1 = Settles total s
                ∧ total ≤ 18000) ∧
  (∀ billData expenses payments w,
     ∃ total s, (saveBillComplete billData expenses payments w).1 = Settles total s
                ∧ total ≤ 18000) ∧
  (∀ renterId month year w,
     (∀ j, (j ≤ maxRetries)%nat → answers_late w j) →
     (getBillWithDetails renterId month year w).1 =
       Settles 18000
         (Rejected (mkError ("Failed to fetch bill details: "
                             +:+ "getBillWithDetails failed after 2 retries: "
                             +:+ "Query timeout - operation took longer than expected")))).
Proof.
  split_and!.
  - intros. apply queryWithTimeout_settles.
  - intros W T queryFn w Hlate. by apply queryWithTimeout_late.
  - intros. by apply (execute_timed_settles _ 5000).
  - intros. apply tracked_rethrow_settles. by apply (execute_timed_settles _ 5000).
  - intros. apply tracked_rethrow_settles. by apply (execute_timed_settles _ 5000).
  - intros renterId month year w Hlate. unfold getBillWithDetails.
    rewrite tracked_rethrow_fst.
    by rewrite (exchange_all_late _ (getBillWithDetails_query_stable renterId month year)).
Qed.

End TimeoutFacts.

(** ** Worked examples *)

Section Examples.
Import Async Store Monitor Data SupabaseService BillCache Sample.

(** Two rejections then a value: three invocations, the value returned.
    Three rejections: three invocations, the wrapped error. *)
Lemma execute_attempt_budget_witness :
  ((execute (counting flaky) "getBillWithDetails" (0%nat, 0%nat)).2.2 = 3%nat ∧
   ∃ total, (execute (counting flaky) "getBillWithDetails" (0%nat, 0%nat)).1
            = Settles total (Resolved 2%nat)) ∧
  ((execute (counting broken) "saveBillComplete" (0%nat, 0%nat)).2.2 = 3%nat ∧
   (execute (counting broken) "saveBillComplete" (0%nat, 0%nat)).1
   = Settles (10 + 1000 + 10 + 2000 + 10)
       (Rejected (mkError "saveBillComplete failed after 2 retries: failure 2"))).
Proof.
  split.
  - destruct (execute_attempt_budget flaky "getBillWithDetails" 0%nat)
      as (_ & _ & Hfirst & _).
    apply (Hfirst 2%nat 10 2%nat).
    + unfold maxRetries. lia.
    + intros [|[|j]] Hj; [by eexists _, _..|lia].
    + reflexivity.
  - destruct (execute_attempt_budget broken "saveBillComplete" 0%nat)
      as (_ & _ & _ & Hall).
    apply (Hall 10 (mkError "failure 0") 10 (mkError "failure 1") 10 (mkError "failure 2"));
      reflexivity.
Defined.

(** The set-difference example: the stored bill has expenses exp-1 and
    exp-2; it is saved with exp-1 edited and one new expense.  exp-2 goes,
    the new expense is stored under a drawn identity, two identities come
    back. *)
Lemma save_bill_complete_reconciles_witness :
  ∃ res db',
    save_bill_complete december_json
      [expense (Some "exp-1") plumbing; expense None paint]
      [payment (Some "pay-1") advance] "user-1" store = inr (res, db') ∧
    known_children (result_bill_id res) (additional_expenses store)
      [expense (Some "exp-1") plumbing; expense None paint] ∧
    known_children (result_bill_id res) (bill_payments store)
      [payment (Some "pay-1") advance] ∧
    expense_ids res = ["exp-1"; "uuid-0"] ∧
    additional_expenses db' !! "exp-2" = None ∧
    reconciled (result_bill_id res) (additional_expenses store) (additional_expenses db')
      [expense (Some "exp-1") plumbing; expense None paint] (expense_ids res) ∧
    reconciled (result_bill_id res) (bill_payments store) (bill_payments db')
      [payment (Some "pay-1") advance] (payment_ids res).
Proof.
  destruct (save_bill_complete december_json
              [expense (Some "exp-1") plumbing; expense None paint]
              [payment (Some "pay-1") advance] "user-1" store)
    as [e|[res db']] eqn:Hsave; [vm_compute in Hsave; discriminate|].
  exists res, db'.
  assert (Hres : result_bill_id res = "bill-2025-12" ∧
                 expense_ids res = ["exp-1"; "uuid-0"] ∧
                 additional_expenses db' !! "exp-2" = None).
  { pose proof Hsave as Hc. vm_compute in Hc. injection Hc as <- <-.
    split_and!; vm_compute; reflexivity. }
  destruct Hres as (Hbill & Hids & Hgone).
  assert (Hexp : known_children (result_bill_id res) (additional_expenses store)
                   [expense (Some "exp-1") plumbing; expense None paint]).
  { rewrite Hbill. split.
    - change (NoDup ["exp-1"]). apply NoDup_singleton.
    - intros k Hk. change (k ∈ ["exp-1"]) in Hk. apply list_elem_of_singleton in Hk as ->.
      eexists. split; [vm_compute; reflexivity|reflexivity]. }
  assert (Hpay : known_children (result_bill_id res) (bill_payments store)
                   [payment (Some "pay-1") advance]).
  { rewrite Hbill. split.
    - change (NoDup ["pay-1"]). apply NoDup_singleton.
    - intros k Hk. change (k ∈ ["pay-1"]) in Hk. apply list_elem_of_singleton in Hk as ->.
      eexists. split; [vm_compute; reflexivity|reflexivity]. }
  destruct (save_bill_complete_reconciles _ _ _ _ _ _ _ Hsave Hexp Hpay)
    as (_ & _ & Hre & Hrp).
  split_and!; done.
Defined.

(** C1 as stated fails on an identity the store no longer holds: the save of
    one expense carrying identity exp-9 succeeds and returns exp-9, yet the
    bill is left without any expense row. *)
Lemma save_bill_complete_unknown_identity :
  ∃ res db',
    save_bill_complete december_json [expense (Some "exp-9") plumbing] []
      "user-1" store = inr (res, db') ∧
    success res = true ∧
    expense_ids res = ["exp-9"] ∧
    additional_expenses db' = ∅ ∧
    ¬ exact_match (result_bill_id res) (additional_expenses db')
        [expense (Some "exp-9") plumbing] (expense_ids res).
Proof.
  destruct (save_bill_complete december_json [expense (Some "exp-9") plumbing] []
              "user-1" store) as [e|[res db']] eqn:Hsave;
    [vm_compute in Hsave; discriminate|].
  exists res, db'. split; [done|].
  vm_compute in Hsave. injection Hsave as <- <-.
  split_and!; [reflexivity|reflexivity|vm_compute; reflexivity|].
  intros (_ & _ & Hrows).
  destruct (Hrows "exp-9" plumbing) as [_ Hback].
  destruct Hback as (row & Hrow & _).
  - exists 0%nat, (expense (Some "exp-9") plumbing). done.
  - vm_compute in Hrow. discriminate.
Qed.

(** The same identity twice in the incoming list: two identities come back
    for one row, which holds the fields of the later item. *)
Lemma save_bill_complete_repeated_identity :
  ∃ res db',
    save_bill_complete december_json
      [expense (Some "exp-1") plumbing; expense (Some "exp-1") paint] []
      "user-1" store = inr (res, db') ∧
    expense_ids res = ["exp-1"; "exp-1"] ∧
    content <$> additional_expenses db' !! "exp-1" = Some paint ∧
    ¬ exact_match (result_bill_id res) (additional_expenses db')
        [expense (Some "exp-1") plumbing; expense (Some "exp-1") paint]
        (expense_ids res).
Proof.
  destruct (save_bill_complete december_json
              [expense (Some "exp-1") plumbing; expense (Some "exp-1") paint] []
              "user-1" store) as [e|[res db']] eqn:Hsave;
    [vm_compute in Hsave; discriminate|].
  exists res, db'. split; [done|].
  vm_compute in Hsave. injection Hsave as <- <-.
  split_and!; [reflexivity|vm_compute; reflexivity|].
  intros (_ & Hnd & _). simpl in Hnd.
  apply NoDup_cons in Hnd as [Hin _]. apply Hin. by left.
Qed.

(** Saving the bill with exp-1 and pay-1, twice. *)
Lemma save_bill_complete_idempotent_witness :
  ∃ res db',
    Forall (λ v, is_Some (assigned_id v)) [expense (Some "exp-1") plumbing] ∧
    Forall (λ v, is_Some (assigned_id v)) [payment (Some "pay-1") advance] ∧
    save_bill_complete december_json [expense (Some "exp-1") plumbing]
      [payment (Some "pay-1") advance] "user-1" store = inr (res, db') ∧
    ∃ db'',
      save_bill_complete december_json [expense (Some "exp-1") plumbing]
        [payment (Some "pay-1") advance] "user-1" db' = inr (res, db'') ∧
      additional_expenses db'' = additional_expenses db' ∧
      bill_payments db'' = bill_payments db'.
Proof.
  destruct (save_bill_complete december_json [expense (Some "exp-1") plumbing]
              [payment (Some "pay-1") advance] "user-1" store)
    as [e|[res db']] eqn:Hsave; [vm_compute in Hsave; discriminate|].
  exists res, db'.
  assert (Hexp : Forall (λ v : Child ExpenseFields, is_Some (assigned_id v))
                   [expense (Some "exp-1") plumbing]).
  { apply Forall_singleton. by exists "exp-1". }
  assert (Hpay : Forall (λ v : Child PaymentFields, is_Some (assigned_id v))
                   [payment (Some "pay-1") advance]).
  { apply Forall_singleton. by exists "pay-1". }
  split_and!; [exact Hexp|exact Hpay|reflexivity|].
  exact (save_bill_complete_idempotent _ _ _ _ _ _ _ Hexp Hpay Hsave).
Defined.


Lemma in_time_120 rpc : answers_in_time (world rpc (Some 120)) 120.
Proof. split; [reflexivity|lia]. Qed.



Lemma nobody_owns_99 : ¬ owns store "user-1" 99.
Proof. intros (renter & Hr & _). vm_compute in Hr. discriminate. Qed.




(** The entry for January 2026 was written at time 0; at time 900001 it is
    stale, and still served. *)
Lemma stale_entry_still_served_witness :
  cache world_with_january !! getCacheKey 7 1 2026 = Some january_entry ∧
  900001 - timestamp january_entry > CACHE_TTL ∧
  isStale 900001 7 1 2026 world_with_january = true ∧
  (get 900001 7 1 2026 world_with_january).1 = Some (data january_entry) ∧
  cache (get 900001 7 1 2026 world_with_january).2 !! getCacheKey 7 1 2026
    = Some (mkCacheEntry (data january_entry) 0 true).
Proof.
  assert (Hentry : cache world_with_january !! getCacheKey 7 1 2026 = Some january_entry)
    by (vm_compute; reflexivity).
  assert (Hold : 900001 - timestamp january_entry > CACHE_TTL)
    by (vm_compute; reflexivity).
  destruct (stale_entry_still_served 900001 7 1 2026 world_with_january january_entry
              Hentry Hold) as (_ & Hstale & Hdata & Hkept & _).
  split_and!; done.
Defined.

(** Nothing was ever cached for February 2026. *)
Lemma isStale_absent_witness :
  cache world_with_january !! getCacheKey 7 2 2026 = None ∧
  isStale 900001 7 2 2026 world_with_january = false.
Proof.
  assert (Hnone : cache world_with_january !! getCacheKey 7 2 2026 = None)
    by (vm_compute; reflexivity).
  destruct (isStale_absent 900001 7 2 2026 world_with_january) as (Habsent & _ & _).
  split; [exact Hnone|exact (Habsent Hnone)].
Defined.

(** Preloading around January 2025 fills December 2024 and February 2025, and
    neither a month 0 nor a month 13. *)
Lemma preload_adjacent_months_witness :
  1 ≤ 1 ≤ 12 ∧
  adjacent 1 2025 = ((12, 2024), (2, 2025)) ∧
  (preload 0 7 1 2025 600000 (world true (Some 120))).1 = Resolved () ∧
  is_Some (cache (preload 0 7 1 2025 600000 (world true (Some 120))).2 !! "7-2024-12") ∧
  is_Some (cache (preload 0 7 1 2025 600000 (world true (Some 120))).2 !! "7-2025-2") ∧
  cache (preload 0 7 1 2025 600000 (world true (Some 120))).2 !! "7-2025-0" = None ∧
  cache (preload 0 7 1 2025 600000 (world true (Some 120))).2 !! "7-2025-13" = None.
Proof.
  destruct (preload_adjacent_months 0 7 1 2025 600000 (world true (Some 120)))
    as (Hadj & _ & _ & Hrange & Hres & Hframe & _ & Hprev & Hnext & _).
  assert (Hmonth : 1 ≤ 1 ≤ 12) by lia.
  destruct (Hrange Hmonth) as [_ _].
  set (prevKey := getCacheKey 7 (if decide (1 = 1) then 12 else 1 - 1) _) in *.
  set (nextKey := getCacheKey 7 (if decide (1 = 12) then 1 else 1 + 1) _) in *.
  vm_compute in prevKey, nextKey. subst prevKey nextKey.
  split; [exact Hmonth|]. split_and!.
  - rewrite Hadj. vm_compute. reflexivity.
  - exact Hres.
  - rewrite Hprev by reflexivity. by eexists.
  - rewrite Hnext by reflexivity. by eexists.
  - rewrite Hframe; [reflexivity|discriminate..].
  - rewrite Hframe; [reflexivity|discriminate..].
Defined.

(** A store that never answers: three timed-out attempts, then the error. *)
Lemma attempts_bounded_by_timeout_witness :
  (∀ j, (j ≤ maxRetries)%nat → answers_late (world true None) j) ∧
  (getBillWithDetails 7 1 2026 (world true None)).1 =
    Settles 18000
      (Rejected (mkError ("Failed to fetch bill details: "
                          +:+ "getBillWithDetails failed after 2 retries: "
                          +:+ "Query timeout - operation took longer than expected"))).
Proof.
  assert (Hlate : ∀ j, (j ≤ maxRetries)%nat → answers_late (world true None) j)
    by (intros j _; exact I).
  destruct attempts_bounded_by_timeout as (_ & _ & _ & _ & _ & Hall).
  split; [exact Hlate|exact (Hall 7 1 2026 (world true None) Hlate)].
Defined.

End Examples.

(** * Further properties *)

(** ** Retry: schedule and hanging *)

Section RetryMore.
Import Async.

(** X1.  The back-off schedule.  A value at the first attempt is returned when it
    arrives; after one rejection the wrapper sleeps 1000 ms before the second
    attempt, after two it sleeps 2000 ms more before the third.  The world is
    the one the successful attempt left. *)
Theorem execute_backoff_schedule {W T} (queryFn : task W T) context w :
  (∀ ms v,
     outcome queryFn w 0 = Settles ms (Resolved v) →
     execute queryFn context w = (Settles ms (Resolved v), world_after queryFn w 1)) ∧
  (∀ ms0 e0 ms v,
     outcome queryFn w 0 = Settles ms0 (Rejected e0) →
     outcome queryFn w 1 = Settles ms (Resolved v) →
     execute queryFn context w
     = (Settles (ms0 + 1000 + ms) (Resolved v), world_after queryFn w 2)) ∧
  (∀ ms0 e0 ms1 e1 ms v,
     outcome queryFn w 0 = Settles ms0 (Rejected e0) →
     outcome queryFn w 1 = Settles ms1 (Rejected e1) →
     outcome queryFn w 2 = Settles ms (Resolved v) →
     execute queryFn context w
     = (Settles (ms0 + 1000 + ms1 + 2000 + ms) (Resolved v), world_after queryFn w 3)).
Proof.
  unfold execute, maxRetries.
  split_and!.
  - intros ms v H0. change w with (world_after queryFn w 0) at 1.
    rewrite attempts_step, H0. reflexivity.
  - intros ms0 e0 ms v H0 H1. change w with (world_after queryFn w 0) at 1.
    rewrite attempts_step, H0, attempts_step, H1.
    unfold baseDelay. simpl. do 2 f_equal; lia.
  - intros ms0 e0 ms1 e1 ms v H0 H1 H2. change w with (world_after queryFn w 0) at 1.
    rewrite attempts_step, H0, attempts_step, H1, attempts_step, H2.
    unfold baseDelay. simpl. do 2 f_equal; lia.
Qed.

Lemma execute_backoff_schedule_witness :
  outcome Sample.flaky 0%nat 0 = Settles 10 (Rejected (mkError "connection reset")) ∧
  outcome Sample.flaky 0%nat 1 = Settles 10 (Rejected (mkError "connection reset")) ∧
  outcome Sample.flaky 0%nat 2 = Settles 10 (Resolved 2%nat) ∧
  execute Sample.flaky "getBillWithDetails" 0%nat
  = (Settles (10 + 1000 + 10 + 2000 + 10) (Resolved 2%nat), 3%nat).
Proof.
  split_and!; [reflexivity..|].
  destruct (execute_backoff_schedule Sample.flaky "getBillWithDetails" 0%nat)
    as (_ & _ & Hthird).
  exact (Hthird 10 _ 10 _ 10 2%nat eq_refl eq_refl eq_refl).
Defined.

(** X2.  On its own the retry wrapper puts no bound on an attempt: when the first
    attempt that is not rejected never settles, neither does the wrapper, and
    it makes no further attempt. *)
Theorem execute_waits_forever {W T} (queryFn : task W T) context w k :
  (k ≤ maxRetries)%nat →
  (∀ j, (j < k)%nat → ∃ ms e, outcome queryFn w j = Settles ms (Rejected e)) →
  outcome queryFn w k = Pending →
  execute queryFn context w = (Pending, world_after queryFn w (S k)).
Proof.
  unfold execute, maxRetries. intros Hk Hprev Hpend.
  change w with (world_after queryFn w 0) at 1.
  destruct k as [|[|[|k]]]; [| | |lia].
  - rewrite attempts_step, Hpend. reflexivity.
  - destruct (Hprev 0%nat) as (ms0 & e0 & H0); [lia|].
    rewrite attempts_step, H0, attempts_step, Hpend. reflexivity.
  - destruct (Hprev 0%nat) as (ms0 & e0 & H0); [lia|].
    destruct (Hprev 1%nat) as (ms1 & e1 & H1); [lia|].
    rewrite attempts_step, H0, attempts_step, H1, attempts_step, Hpend. reflexivity.
Qed.

End RetryMore.

(** ** The combined read: scope, and the variant of simple-schema.sql *)

Section ReadMore.
Import Store.


Lemma elem_of_children_agg {F} (v_bill_id : string) (tbl : gmap string (ChildRow F)) c :
  c ∈ children_agg v_bill_id tbl ↔
  ∃ k row, tbl !! k = Some row ∧ monthly_bill_id row = v_bill_id ∧ c = child_json (k, row).
Proof.
  unfold children_agg, children_of. rewrite list_elem_of_fmap. split.
  - intros ([k row] & -> & Hin). apply elem_of_map_to_list in Hin.
    apply map_lookup_filter_Some in Hin as [Hrow Hb]. eauto.
  - intros (k & row & Hrow & Hb & ->). exists (k, row). split; [done|].
    apply elem_of_map_to_list. by apply map_lookup_filter_Some.
Qed.




End ReadMore.

(** ** The writer: what it leaves alone, what it returns, reading back *)

Section WriterMore.
Import Store RoundTrip.

Section Loop.
Context {F : Type} (gen : nat → string) (clock : Z) (b : string).
Implicit Types (p : list (Child F)) (tbl : gmap string (ChildRow F)).

Lemma update_child_other tbl k f k' row :
  monthly_bill_id row ≠ b →
  update_child b k f tbl !! k' = Some row ↔ tbl !! k' = Some row.
Proof.
  intros Hb. unfold update_child.
  destruct (tbl !! k) as [r|] eqn:Hk; [|done]. case_decide as Hr; [|done].
  destruct (decide (k = k')) as [->|Hne].
  - rewrite lookup_insert_eq, Hk. split; intros [= <-]; simpl in *; congruence.
  - by rewrite lookup_insert_ne.
Qed.

(** The loop neither changes nor adds a row of another bill, and only draws
    identities forward. *)
Lemma process_children_other p : ∀ tbl n ids tbl' n' ids',
  process_children gen clock b p tbl n ids = inr (tbl', n', ids') →
  (n ≤ n')%nat ∧
  ∀ k row, monthly_bill_id row ≠ b → tbl' !! k = Some row ↔ tbl !! k = Some row.
Proof.
  induction p as [|v p IH]; intros tbl n ids tbl' n' ids' Hrun; simpl in Hrun.
  - injection Hrun as <- <- <-. done.
  - destruct (assigned_id v) as [k0|].
    + apply IH in Hrun as [Hn Hrows]. split; [done|].
      intros k row Hb. rewrite Hrows by done. by apply update_child_other.
    + destruct (tbl !! gen n) eqn:Hg; [discriminate|].
      apply IH in Hrun as [Hn Hrows]. split; [lia|].
      intros k row Hb. rewrite Hrows by done.
      destruct (decide (gen n = k)) as [<-|Hne].
      * rewrite lookup_insert_eq, Hg. split; intros [= <-]; simpl in *; congruence.
      * by rewrite lookup_insert_ne.
Qed.

Lemma delete_not_listed_other p tbl k row :
  monthly_bill_id row ≠ b →
  delete_not_listed b p tbl !! k = Some row ↔ tbl !! k = Some row.
Proof.
  intros Hb. rewrite (delete_not_listed_lookup b).
  destruct (tbl !! k) as [row'|]; simpl; [|done].
  case_decide as Hd; [|done].
  split; [done|]. intros [= ->]. by destruct Hd.
Qed.

End Loop.

(** X5.  The writer touches one bill.  Renters, the bills stored under other
    keys, and every expense and payment row attached to another bill are
    after the call what they were before it, and no row of another bill
    appears; this needs no assumption on the incoming lists. *)
Theorem save_bill_complete_frame p_bill_data p_expenses p_payments p_user_id
    db res db' :
  save_bill_complete p_bill_data p_expenses p_payments p_user_id db = inr (res, db') →
  renters db' = renters db ∧
  (drawn db ≤ drawn db')%nat ∧
  (∀ key, key ≠ bill_key p_bill_data → monthly_bills db' !! key = monthly_bills db !! key) ∧
  (∀ k row, monthly_bill_id row ≠ result_bill_id res →
            additional_expenses db' !! k = Some row ↔ additional_expenses db !! k = Some row) ∧
  (∀ k row, monthly_bill_id row ≠ result_bill_id res →
            bill_payments db' !! k = Some row ↔ bill_payments db !! k = Some row).
Proof.
  unfold save_bill_complete.
  destruct (upsert_bill _ _ _) as [e|[[v_bill_id bills] n0]] eqn:Hup; [discriminate|].
  destruct (process_children _ _ _ p_expenses _ _ _)
    as [e|[[exps' n1] v_expense_ids]] eqn:He; [discriminate|].
  destruct (process_children _ _ _ p_payments _ _ _)
    as [e|[[pays' n2] v_payment_ids]] eqn:Hp; [discriminate|].
  intros [= <- <-]. simpl.
  apply process_children_other in He as [Hn1 He].
  apply process_children_other in Hp as [Hn2 Hp].
  assert (Hbills : (drawn db ≤ n0)%nat ∧
            ∀ key, key ≠ bill_key p_bill_data → bills !! key = monthly_bills db !! key).
  { unfold upsert_bill in Hup. fold (bill_key p_bill_data) in Hup.
    destruct (monthly_bills db !! bill_key p_bill_data).
    - injection Hup as <- <- <-. split; [done|]. intros key Hkey. by rewrite lookup_insert_ne.
    - repeat case_decide; try discriminate. injection Hup as <- <- <-.
      split; [lia|]. intros key Hkey. by rewrite lookup_insert_ne. }
  destruct Hbills as [Hn0 Hbills].
  split_and!; [done|lia|done|..].
  - intros k row Hb. rewrite He by done. by apply delete_not_listed_other.
  - intros k row Hb. rewrite Hp by done. by apply delete_not_listed_other.
Qed.

(** X6.  The result of a successful call always has one identity per incoming
    item, and an item that came with an identity gets that identity back at
    its own position, whether or not the store had a row for it. *)
Theorem save_bill_complete_echoes_identities p_bill_data p_expenses p_payments
    p_user_id db res db' :
  save_bill_complete p_bill_data p_expenses p_payments p_user_id db = inr (res, db') →
  success res = true ∧
  length (expense_ids res) = length p_expenses ∧
  length (payment_ids res) = length p_payments ∧
  (∀ i v k, p_expenses !! i = Some v → assigned_id v = Some k →
            expense_ids res !! i = Some k) ∧
  (∀ i v k, p_payments !! i = Some v → assigned_id v = Some k →
            payment_ids res !! i = Some k).
Proof.
  unfold save_bill_complete.
  destruct (upsert_bill _ _ _) as [e|[[v_bill_id bills] n0]] eqn:Hup; [discriminate|].
  destruct (process_children _ _ _ p_expenses _ _ _)
    as [e|[[exps' n1] v_expense_ids]] eqn:He; [discriminate|].
  destruct (process_children _ _ _ p_payments _ _ _)
    as [e|[[pays' n2] v_payment_ids]] eqn:Hp; [discriminate|].
  intros [= <- <-]. simpl.
  apply process_children_ids in He as (ne & -> & Hle & Hoe).
  apply process_children_ids in Hp as (np & -> & Hlp & Hop).
  simpl. done.
Qed.

(** X7.  The upsert does not look at who owns an existing bill.  When the key
    already has a row, a successful call by any user returns that row's
    identity and leaves the row with its identity, its owner and its
    creation time, the value columns replaced by the incoming ones.  When the
    key has no row, the new row belongs to the caller and its identity is the
    next one drawn. *)
Theorem save_bill_complete_upsert p_bill_data p_expenses p_payments p_user_id
    db res db' :
  save_bill_complete p_bill_data p_expenses p_payments p_user_id db = inr (res, db') →
  match monthly_bills db !! bill_key p_bill_data with
  | Some row =>
      result_bill_id res = bill_id row ∧
      monthly_bills db' !! bill_key p_bill_data
      = Some (mkBillRow (bill_id row) (bill_user_id row) (fields p_bill_data)
                (bill_created_at row) (now db))
  | None =>
      result_bill_id res = gen_random_uuid db (drawn db) ∧
      is_Some (renters db !! renter_id p_bill_data) ∧
      monthly_bills db' !! bill_key p_bill_data
      = Some (mkBillRow (result_bill_id res) (Some p_user_id) (fields p_bill_data)
                (now db) (now db))
  end.
Proof.
  unfold save_bill_complete.
  destruct (upsert_bill _ _ _) as [e|[[v_bill_id bills] n0]] eqn:Hup; [discriminate|].
  destruct (process_children _ _ _ p_expenses _ _ _)
    as [e|[[exps' n1] v_expense_ids]] eqn:He; [discriminate|].
  destruct (process_children _ _ _ p_payments _ _ _)
    as [e|[[pays' n2] v_payment_ids]] eqn:Hp; [discriminate|].
  intros [= <- <-]. simpl.
  unfold upsert_bill in Hup. fold (bill_key p_bill_data) in Hup.
  destruct (monthly_bills db !! bill_key p_bill_data) as [row|].
  - injection Hup as <- <- <-. by rewrite lookup_insert_eq.
  - repeat case_decide; try discriminate. injection Hup as <- <- <-.
    by rewrite lookup_insert_eq.
Qed.

(** X8.  A bill for a renter that does not exist cannot be created: with no row
    under the key and no such renter the call fails, whatever the lists. *)
Theorem save_bill_complete_unknown_renter p_bill_data p_expenses p_payments
    p_user_id db :
  monthly_bills db !! bill_key p_bill_data = None →
  renters db !! renter_id p_bill_data = None →
  ∃ e, save_bill_complete p_bill_data p_expenses p_payments p_user_id db = inl e.
Proof.
  intros Hbill Hrenter. unfold save_bill_complete, upsert_bill.
  fold (bill_key p_bill_data). rewrite Hbill, Hrenter.
  case_decide; [eauto|]. rewrite decide_False; [eauto|]. by intros [? ?].
Qed.

End WriterMore.

Section ReadBack.
Import Store RoundTrip.

(** Listing the rows of a bill that match the incoming items gives those
    items back. *)
Lemma children_agg_returns_items {F} (b : string) (tbl : gmap string (ChildRow F))
    (p : list (Child F)) (ids : list string) :
  exact_match b tbl p ids → returns_items b (children_agg b tbl) p ids.
Proof.
  intros (Hlen & Hnd & Hrows). split_and!.
  - rewrite <- Hlen. unfold children_agg. rewrite length_fmap.
    rewrite <- (length_fmap fst). apply Permutation_length, NoDup_Permutation.
    + apply NoDup_fst_map_to_list.
    + done.
    + intros k. rewrite list_elem_of_fmap. split.
      * intros ([k' row] & -> & Hin). simpl.
        apply elem_of_map_to_list, map_lookup_filter_Some in Hin as [Hrow Hb].
        simpl in Hb.
        destruct (Hrows k' (content row)) as [(i & v & Hi & _) _]; [by eauto|].
        by eapply list_elem_of_lookup_2.
      * intros (i & Hi)%list_elem_of_lookup.
        destruct (lookup_lt_is_Some_2 p i) as [v Hv].
        { rewrite <- Hlen. by eapply lookup_lt_Some. }
        destruct (Hrows k (child_fields v)) as [_ (row & Hrow & Hb & _)]; [by eauto|].
        exists (k, row). split; [done|].
        by apply elem_of_map_to_list, map_lookup_filter_Some.
  - intros c (k & row & Hrow & Hb & ->)%elem_of_children_agg. simpl. split; [done|].
    destruct (Hrows k (content row)) as [(i & v & Hi & Hv & Hf) _]; [by eauto|].
    exists i, v, k. done.
  - intros i v k Hi Hv.
    destruct (Hrows k (child_fields v)) as [_ (row & Hrow & Hb & Hf)]; [by eauto|].
    exists (child_json (k, row)). split_and!; [|done..].
    apply elem_of_children_agg. eauto.
Qed.

(** X9.  Reading back what was saved.  After a successful save, by the owner of
    the bill (or of a bill that did not exist yet), of lists whose assigned
    identities name rows of the bill, the combined read for the same key and
    user returns the bill with the saved value columns under the returned
    identity, and as expenses and payments exactly the saved items, each
    under the identity returned for it. *)
Theorem save_then_get_bill_with_details p_bill_data p_expenses p_payments p_user_id
    db res db' :
  save_bill_complete p_bill_data p_expenses p_payments p_user_id db = inr (res, db') →
  (∀ row, monthly_bills db !! bill_key p_bill_data = Some row →
          bill_user_id row = Some p_user_id) →
  known_children (result_bill_id res) (additional_expenses db) p_expenses →
  known_children (result_bill_id res) (bill_payments db) p_payments →
  ∃ d b,
    get_bill_with_details db' (renter_id p_bill_data) (month p_bill_data)
      (year p_bill_data) p_user_id = Some d ∧
    bill d = Some b ∧
    id b = Some (result_bill_id res) ∧ user_id b = Some p_user_id ∧
    fields b = fields p_bill_data ∧
    returns_items (result_bill_id res) (expenses d) p_expenses (expense_ids res) ∧
    returns_items (result_bill_id res) (payments d) p_payments (payment_ids res).
Proof.
  intros Hsave Howner Hke Hkp.
  assert (Hrow : ∃ row, monthly_bills db' !! bill_key p_bill_data = Some row ∧
                        bill_id row = result_bill_id res ∧
                        bill_user_id row = Some p_user_id ∧
                        bill_fields row = fields p_bill_data).
  { revert Hsave. unfold save_bill_complete.
    destruct (upsert_bill _ _ _) as [e|[[v_bill_id bills] n0]] eqn:Hup; [discriminate|].
    destruct (process_children _ _ _ p_expenses _ _ _)
      as [e|[[exps' n1] v_expense_ids]]; [discriminate|].
    destruct (process_children _ _ _ p_payments _ _ _)
      as [e|[[pays' n2] v_payment_ids]]; [discriminate|].
    intros [= <- <-]. simpl.
    unfold upsert_bill in Hup. fold (bill_key p_bill_data) in Hup.
    destruct (monthly_bills db !! bill_key p_bill_data) as [row|] eqn:Hold.
    - injection Hup as <- <- <-. eexists. rewrite lookup_insert_eq.
      split_and!; [done..| |done]. simpl. by apply Howner.
    - repeat case_decide; try discriminate. injection Hup as <- <- <-.
      eexists. by rewrite lookup_insert_eq. }
  destruct Hrow as (row & Hrow & Hid & Huser & Hfields).
  assert (Hexp : exact_match (result_bill_id res) (additional_expenses db')
                   p_expenses (expense_ids res)).
  { revert Hsave Hke Hkp. unfold save_bill_complete.
    destruct (upsert_bill _ _ _) as [e|[[v_bill_id bills] n0]]; [discriminate|].
    destruct (process_children _ _ _ p_expenses _ _ _)
      as [e|[[exps' n1] v_expense_ids]] eqn:He; [discriminate|].
    destruct (process_children _ _ _ p_payments _ _ _)
      as [e|[[pays' n2] v_payment_ids]] eqn:Hp; [discriminate|].
    intros [= <- <-]. simpl. intros Hke Hkp.
    by destruct (reconcile_known _ _ _ _ _ _ _ _ _ He Hke) as [? _]. }
  assert (Hpay : exact_match (result_bill_id res) (bill_payments db')
                   p_payments (payment_ids res)).
  { revert Hsave Hke Hkp. unfold save_bill_complete.
    destruct (upsert_bill _ _ _) as [e|[[v_bill_id bills] n0]]; [discriminate|].
    destruct (process_children _ _ _ p_expenses _ _ _)
      as [e|[[exps' n1] v_expense_ids]] eqn:He; [discriminate|].
    destruct (process_children _ _ _ p_payments _ _ _)
      as [e|[[pays' n2] v_payment_ids]] eqn:Hp; [discriminate|].
    intros [= <- <-]. simpl. intros Hke Hkp.
    by destruct (reconcile_known _ _ _ _ _ _ _ _ _ Hp Hkp) as [? _]. }
  unfold get_bill_with_details, select_bill.
  unfold bill_key in Hrow. rewrite Hrow. simpl. rewrite decide_True by done. simpl.
  eexists _, _. split_and!; [reflexivity|reflexivity|simpl..].
  - by rewrite Hid.
  - done.
  - done.
  - rewrite Hid. by apply children_agg_returns_items.
  - rewrite Hid. by apply children_agg_returns_items.
Qed.

End ReadBack.

(** ** The service calls under retry *)

Section CallFacts.
Import Async Store Monitor Data SupabaseService Calls.

(** How a run of the retry loop ends: at the first attempt that is not a
    rejection, or after three rejections. *)
Lemma execute_cases {W T} (queryFn : task W T) context w :
  (∃ k, (k ≤ maxRetries)%nat ∧ (∀ j, (j < k)%nat → rejected_at queryFn w j) ∧
        (execute queryFn context w).2 = world_after queryFn w (S k) ∧
        ((outcome queryFn w k = Pending ∧ (execute queryFn context w).1 = Pending) ∨
         (∃ ms v total, outcome queryFn w k = Settles ms (Resolved v) ∧
                        (execute queryFn context w).1 = Settles total (Resolved v)))) ∨
  (∃ ms0 e0 ms1 e1 ms2 e2,
     outcome queryFn w 0 = Settles ms0 (Rejected e0) ∧
     outcome queryFn w 1 = Settles ms1 (Rejected e1) ∧
     outcome queryFn w 2 = Settles ms2 (Rejected e2) ∧
     execute queryFn context w =
       (Settles (ms0 + 1000 + ms1 + 2000 + ms2)
          (Rejected (mkError (context +:+ " failed after 2 retries: " +:+ message e2))),
        world_after queryFn w 3)).
Proof.
  unfold rejected_at.
  assert (Hstart : execute queryFn context w
                   = attempts queryFn context 3 0 None 0 (world_after queryFn w 0))
    by reflexivity.
  rewrite attempts_step in Hstart.
  destruct (outcome queryFn w 0) as [|ms0 [v0|e0]] eqn:H0.
  { left. exists 0%nat. rewrite Hstart.
    split_and!; [unfold maxRetries; lia|intros; lia|done|by left]. }
  { left. exists 0%nat. rewrite Hstart.
    split_and!; [unfold maxRetries; lia|intros; lia|done|right; by eexists _, _, _]. }
  rewrite attempts_step in Hstart.
  destruct (outcome queryFn w 1) as [|ms1 [v1|e1]] eqn:H1.
  { left. exists 1%nat. rewrite Hstart.
    split_and!; [unfold maxRetries; lia| |done|by left].
    intros [|j] Hj; [by eexists _, _|lia]. }
  { left. exists 1%nat. rewrite Hstart.
    split_and!; [unfold maxRetries; lia| |done|right; by eexists _, _, _].
    intros [|j] Hj; [by eexists _, _|lia]. }
  rewrite attempts_step in Hstart.
  destruct (outcome queryFn w 2) as [|ms2 [v2|e2]] eqn:H2.
  { left. exists 2%nat. rewrite Hstart.
    split_and!; [unfold maxRetries; lia| |done|by left].
    intros [|[|j]] Hj; [by eexists _, _..|lia]. }
  { left. exists 2%nat. rewrite Hstart.
    split_and!; [unfold maxRetries; lia| |done|right; by eexists _, _, _].
    intros [|[|j]] Hj; [by eexists _, _..|lia]. }
  right. exists ms0, e0, ms1, e1, ms2, e2. split_and!; [done..|].
  rewrite Hstart. unfold baseDelay. simpl. do 2 f_equal; lia.
Qed.

(** What [trackQueryPerformance] and the outer [catch] do to the world:
    nothing but the log entry. *)
Lemma tracked_rethrow_snd {T} name prefix (queryFn : task World T) w :
  (trackQueryPerformance name (rethrow prefix queryFn) w).2 =
  match (trackQueryPerformance name (rethrow prefix queryFn) w).1 with
  | Pending => (queryFn w).2
  | Settles ms s =>
      with_monitor (logQuery name ms (error_text s) (performanceMonitor (queryFn w).2))
        (queryFn w).2
  end.
Proof.
  unfold trackQueryPerformance, rethrow. destruct (queryFn w) as [p w']. simpl.
  by destruct p as [|ms [v|e]].
Qed.

Lemma tracked_rethrow_db {T} name prefix (queryFn : task World T) w :
  db (trackQueryPerformance name (rethrow prefix queryFn) w).2 = db (queryFn w).2.
Proof. rewrite tracked_rethrow_snd. by case_match. Qed.

(** *** [saveBillComplete] *)

Lemma save_bill_complete_expected bd es ps user d res d' :
  save_bill_complete bd es ps user d = inr (res, d') →
  result_bill_id res = expected_bill_id d bd ∧
  expected_bill_id d' bd = expected_bill_id d bd.
Proof.
  unfold save_bill_complete.
  destruct (upsert_bill _ _ _) as [e|[[v_bill_id bills] n0]] eqn:Hup; [discriminate|].
  destruct (process_children _ _ _ es _ _ _) as [e|[[exps' n1] ides]]; [discriminate|].
  destruct (process_children _ _ _ ps _ _ _) as [e|[[pays' n2] idps]]; [discriminate|].
  intros [= <- <-]. unfold expected_bill_id, bill_key. simpl.
  unfold upsert_bill in Hup.
  destruct (monthly_bills d !! _) as [row|].
  - injection Hup as <- <- <-. by rewrite lookup_insert_eq.
  - repeat case_decide; try discriminate. injection Hup as <- <- <-.
    by rewrite lookup_insert_eq.
Qed.

Lemma reconciled_known {F} b (tbl tbl' : gmap string (ChildRow F)) p ids :
  reconciled b tbl tbl' p ids → NoDup (omap assigned_id p) → known_children b tbl' p.
Proof.
  intros ((Hlen & Hnd & Hrows) & Hecho & _) Hnd'. split; [done|].
  intros k (v & Hv & Hk)%list_elem_of_omap.
  apply list_elem_of_lookup in Hv as [i Hi].
  specialize (Hecho i v k Hi Hk).
  destruct (Hrows k (child_fields v)) as [_ Hback].
  destruct Hback as (row & Hrow & Hb & _); [by exists i, v|].
  by exists row.
Qed.

(** A successful save on a store that knows the incoming identities returns
    the identity the key stands for, leaves the key standing for it, leaves
    the children of the bill matching the lists, and leaves the incoming
    identities known. *)
Lemma save_bill_complete_stable bd es ps user d res d' :
  save_bill_complete bd es ps user d = inr (res, d') →
  known_children (expected_bill_id d bd) (additional_expenses d) es →
  known_children (expected_bill_id d bd) (bill_payments d) ps →
  result_bill_id res = expected_bill_id d bd ∧
  expected_bill_id d' bd = expected_bill_id d bd ∧
  (∃ row, monthly_bills d' !! bill_key bd = Some row ∧
          bill_id row = expected_bill_id d bd ∧ bill_fields row = fields bd) ∧
  exact_match (expected_bill_id d bd) (additional_expenses d') es (expense_ids res) ∧
  exact_match (expected_bill_id d bd) (bill_payments d') ps (payment_ids res) ∧
  known_children (expected_bill_id d bd) (additional_expenses d') es ∧
  known_children (expected_bill_id d bd) (bill_payments d') ps.
Proof.
  intros Hsave Hke Hkp.
  destruct (save_bill_complete_expected _ _ _ _ _ _ _ Hsave) as [Hid Hid'].
  revert Hsave. unfold save_bill_complete.
  destruct (upsert_bill _ _ _) as [e|[[v_bill_id bills] n0]] eqn:Hup; [discriminate|].
  destruct (process_children _ _ _ es _ _ _) as [e|[[exps' n1] ides]] eqn:He;
    [discriminate|].
  destruct (process_children _ _ _ ps _ _ _) as [e|[[pays' n2] idps]] eqn:Hp;
    [discriminate|].
  intros [= <- <-]. simpl in *. subst v_bill_id.
  pose proof (reconcile_known _ _ _ _ _ _ _ _ _ He Hke) as Hre.
  pose proof (reconcile_known _ _ _ _ _ _ _ _ _ Hp Hkp) as Hrp.
  split_and!.
  - done.
  - done.
  - by apply upsert_bill_stored in Hup.
  - apply Hre.
  - apply Hrp.
  - eapply reconciled_known; [done|apply Hke].
  - eapply reconciled_known; [done|apply Hkp].
Qed.

(** One invocation of the body of [saveBillComplete]: one more exchange, and
    the store either as it was or as a successful save left it. *)
Lemma saveBillComplete_query_snd bd es ps w :
  let w' := (saveBillComplete_query bd es ps w).2 in
  session w' = session w ∧ rpc_deployed w' = rpc_deployed w ∧
  latency w' = latency w ∧ round_trips w' = S (round_trips w) ∧
  cache w' = cache w ∧ performanceMonitor w' = performanceMonitor w ∧
  (db w' = db w ∨
   ∃ user res, session w = Some user ∧
               save_bill_complete bd es ps user (db w) = inr (res, db w')).
Proof.
  unfold saveBillComplete_query.
  destruct (session w) as [user|] eqn:Hs; [|simpl; split_and!; auto].
  destruct (rpc_deployed w) eqn:Hrpc; [|simpl; split_and!; auto].
  destruct (save_bill_complete _ _ _ _ _) as [e|[res d']] eqn:Hsave;
    simpl; split_and!; auto.
  right. by exists user, res.
Qed.


(** The store across abandoned attempts: the key keeps standing for the same
    bill and the incoming identities stay known. *)
Lemma saveBillComplete_attempts bd es ps w j :
  known_children (expected_bill_id (db w) bd) (additional_expenses (db w)) es →
  known_children (expected_bill_id (db w) bd) (bill_payments (db w)) ps →
  let wj := world_after (saveBillComplete_query bd es ps) w j in
  session wj = session w ∧ rpc_deployed wj = rpc_deployed w ∧
  latency wj = latency w ∧ round_trips wj = (round_trips w + j)%nat ∧
  cache wj = cache w ∧ performanceMonitor wj = performanceMonitor w ∧
  expected_bill_id (db wj) bd = expected_bill_id (db w) bd ∧
  known_children (expected_bill_id (db w) bd) (additional_expenses (db wj)) es ∧
  known_children (expected_bill_id (db w) bd) (bill_payments (db wj)) ps.
Proof.
  intros Hke Hkp. induction j as [|j IH].
  - simpl. rewrite Nat.add_0_r. split_and!; done.
  - destruct IH as (Hs & Hr & Hl & Hn & Hc & Hm & Hid & Hke' & Hkp').
    change (world_after ?f w (S j)) with (snd (f (world_after f w j))).
    destruct (saveBillComplete_query_snd bd es ps
                (world_after (saveBillComplete_query bd es ps) w j))
      as (Hs1 & Hr1 & Hl1 & Hn1 & Hc1 & Hm1 & Hdb).
    generalize dependent (world_after (saveBillComplete_query bd es ps) w j).
    intros wj Hs Hr Hl Hn Hc Hm Hid Hke' Hkp'.
    generalize (saveBillComplete_query bd es ps wj). intros [p w1]. cbn [fst snd].
    intros Hs1 Hr1 Hl1 Hn1 Hc1 Hm1 Hdb.
    assert (Hstable : expected_bill_id (db w1) bd = expected_bill_id (db w) bd ∧
              known_children (expected_bill_id (db w) bd) (additional_expenses (db w1)) es ∧
              known_children (expected_bill_id (db w) bd) (bill_payments (db w1)) ps).
    { destruct Hdb as [->|(user & res & _ & Hsave)]; [done|].
      rewrite <- Hid in Hke', Hkp'.
      destruct (save_bill_complete_stable _ _ _ _ _ _ _ Hsave Hke' Hkp')
        as (_ & Hid1 & _ & _ & _ & Hk1 & Hk2).
      rewrite Hid in Hid1, Hk1, Hk2. done. }
    destruct Hstable as (? & ? & ?).
    split_and!; try congruence. rewrite Hn1, Hn. lia.
Qed.


(** X11.  A rejection does not mean that nothing was written.  When the first save
    goes through on the server and all three answers arrive after the 5000 ms
    bound, [saveBillComplete] rejects with the timeout message, yet the store
    holds the bill with the incoming fields and its children match the
    incoming lists. *)
Theorem saveBillComplete_rejected_yet_applied billData expenses payments w user res0 d0 :
  session w = Some user → rpc_deployed w = true →
  save_bill_complete billData expenses payments user (db w) = inr (res0, d0) →
  known_children (expected_bill_id (db w) billData)
    (additional_expenses (db w)) expenses →
  known_children (expected_bill_id (db w) billData) (bill_payments (db w)) payments →
  (∀ j, (j ≤ maxRetries)%nat → answered_late w j) →
  (saveBillComplete billData expenses payments w).1 =
    Settles 18000
      (Rejected (mkError ("Failed to save bill: "
                          +:+ "saveBillComplete failed after 2 retries: "
                          +:+ "Query timeout - operation took longer than expected"))) ∧
  let d' := db (saveBillComplete billData expenses payments w).2 in
  (∃ row, monthly_bills d' !! bill_key billData = Some row ∧
          bill_id row = result_bill_id res0 ∧ bill_fields row = fields billData) ∧
  (∃ ids, exact_match (result_bill_id res0) (additional_expenses d') expenses ids) ∧
  (∃ ids, exact_match (result_bill_id res0) (bill_payments d') payments ids).
Proof.
  intros Hs Hrpc Hsave Hke Hkp Hlate.
  set (q := saveBillComplete_query billData expenses payments).
  set (b := expected_bill_id (db w) billData) in *.
  assert (Hb : result_bill_id res0 = b)
    by apply (save_bill_complete_expected _ _ _ _ _ _ _ Hsave).
  rewrite Hb.
  assert (Hlate' : ∀ j, (j ≤ maxRetries)%nat → late 5000 (outcome q w j)).
  { intros j Hj. destruct (Hlate j Hj) as (ms & Hms & Hgt).
    destruct (saveBillComplete_attempts billData expenses payments w j Hke Hkp)
      as (Hsj & Hrj & Hlj & Hnj & _).
    unfold outcome. fold q in Hsj, Hrj, Hlj, Hnj.
    unfold q at 1. unfold saveBillComplete_query, respond.
    rewrite Hsj, Hs, Hrj, Hrpc.
    generalize (save_bill_complete billData expenses payments user
                  (db (world_after q w j))).
    intros [e|[res d']]; simpl; rewrite Hlj, Hnj, Hms; simpl; lia. }
  assert (Happlied : ∀ j,
    let d := db (world_after q w (S j)) in
    (∃ row, monthly_bills d !! bill_key billData = Some row ∧
            bill_id row = b ∧ bill_fields row = fields billData) ∧
    (∃ ids, exact_match b (additional_expenses d) expenses ids) ∧
    (∃ ids, exact_match b (bill_payments d) payments ids)).
  { induction j as [|j IH].
    - simpl. unfold q at 1 2 3. unfold saveBillComplete_query.
      rewrite Hs, Hrpc, Hsave. simpl.
      destruct (save_bill_complete_stable _ _ _ _ _ _ _ Hsave Hke Hkp)
        as (_ & _ & Hrow & He & Hp & _). eauto.
    - pose proof (saveBillComplete_query_snd billData expenses payments
                    (world_after q w (S j))) as Hstep.
      pose proof (saveBillComplete_attempts billData expenses payments w (S j) Hke Hkp)
        as Hinv.
      fold q in Hstep, Hinv. fold b in Hinv. cbv zeta in Hstep, Hinv, IH |- *.
      change (world_after q w (S (S j))) with (snd (q (world_after q w (S j)))).
      set (wj := world_after q w (S j)) in *. clearbody wj.
      destruct (q wj) as [p w1]. cbn [fst snd] in *.
      destruct Hstep as (_ & _ & _ & _ & _ & _ & Hdb).
      destruct Hinv as (_ & _ & _ & _ & _ & _ & Hid & Hke' & Hkp').
      destruct Hdb as [Heq|(user' & res & _ & Hsave')]; [rewrite Heq; exact IH|].
      rewrite <- Hid in Hke', Hkp'.
      destruct (save_bill_complete_stable _ _ _ _ _ _ _ Hsave' Hke' Hkp')
        as (_ & _ & Hrow & He & Hp & _).
      rewrite Hid in Hrow, He, Hp. eauto. }
  unfold saveBillComplete. rewrite tracked_rethrow_db, tracked_rethrow_fst.
  fold q.
  rewrite (execute_timed_all_late q 5000 "saveBillComplete" w Hlate').
  split; [reflexivity|].
  destruct (execute_cases (queryWithTimeout q 5000) "saveBillComplete" w)
    as [(k & _ & _ & Hw & _)|(ms0 & e0 & ms1 & e1 & ms2 & e2 & _ & _ & _ & Hex)].
  - rewrite Hw, world_after_timeout. apply Happlied.
  - rewrite Hex. cbn [snd]. rewrite world_after_timeout. apply (Happlied 2%nat).
Qed.

End CallFacts.

(** ** The service calls: what they leave behind *)

Section ServiceMore.
Import Async Store Monitor Data SupabaseService Calls.

Lemma with_round_trips_twice n m w :
  with_round_trips n (with_round_trips m w) = with_round_trips n w.
Proof. by destruct w. Qed.

Lemma timed_in_time {T} (ms : Z) (s : settled T) :
  ms < 5000 → timed 5000 (Settles ms s) = Settles ms s.
Proof. intros. simpl. destruct (Z.leb_spec ms 5000); [done|lia]. Qed.

Lemma timed_not_pending {T} timeoutMs (p : promise T) : timed timeoutMs p ≠ Pending.
Proof. destruct (timed_settles timeoutMs p) as (ms & s & -> & _). done. Qed.

(** Three rejections in a row end the loop with the message of the last. *)
Lemma execute_three_rejections {W T} (queryFn : task W T) context w
    ms0 e0 ms1 e1 ms2 e2 :
  outcome queryFn w 0 = Settles ms0 (Rejected e0) →
  outcome queryFn w 1 = Settles ms1 (Rejected e1) →
  outcome queryFn w 2 = Settles ms2 (Rejected e2) →
  execute queryFn context w =
    (Settles (ms0 + 1000 + ms1 + 2000 + ms2)
       (Rejected (mkError (context +:+ " failed after 2 retries: " +:+ message e2))),
     world_after queryFn w 3).
Proof.
  intros H0 H1 H2.
  destruct (execute_cases queryFn context w)
    as [(k & Hk & _ & _ & Hout)|(m0 & f0 & m1 & f1 & m2 & f2 & G0 & G1 & G2 & Hex)].
  - unfold maxRetries in Hk.
    assert (∃ ms e, outcome queryFn w k = Settles ms (Rejected e)) as (ms & e & Hrej).
    { destruct k as [|[|[|k]]]; [eauto..|lia]. }
    rewrite Hrej in Hout. destruct Hout as [[? _]|(? & ? & ? & ? & _)]; done.
  - rewrite H0 in G0. rewrite H1 in G1. rewrite H2 in G2.
    injection G0 as <- <-. injection G1 as <- <-. injection G2 as <- <-. done.
Qed.

Section Exchanges.
Context {T : Type} (q : World → settled T).
Hypothesis q_stable : ∀ n w, q (with_round_trips n w) = q w.

(** A retried remote read always settles, after one to three exchanges, and
    changes nothing but their count. *)
Lemma exchange_execute context w :
  ∃ total s k,
    (1 ≤ k ≤ 3)%nat ∧
    execute (queryWithTimeout (λ w, respond (q w) w) 5000) context w
    = (Settles total s, with_round_trips (round_trips w + k) w).
Proof.
  set (f := λ w, respond (q w) w).
  destruct (execute_cases (queryWithTimeout f 5000) context w)
    as [(k & Hk & _ & Hw & Hout)|(m0 & f0 & m1 & f1 & m2 & f2 & _ & _ & _ & Hex)].
  - destruct Hout as [[Hp _]|(ms & v & total & _ & Hv)].
    { rewrite outcome_timeout in Hp. by apply timed_not_pending in Hp. }
    exists total, (Resolved v), (S k). split; [unfold maxRetries in Hk; lia|].
    rewrite (surjective_pairing (execute _ _ _)), Hw, Hv.
    rewrite world_after_timeout. unfold f.
    by rewrite (world_after_exchange q), with_round_trips_twice.
  - eexists _, _, 3%nat. split; [lia|]. rewrite Hex.
    rewrite world_after_timeout. unfold f.
    by rewrite (world_after_exchange q), with_round_trips_twice.
Qed.

(** A rejection of the body that is answered in time three times over. *)
Lemma exchange_rejected context w e ms0 ms1 ms2 :
  q w = Rejected e →
  answered_in_time w 0 ms0 → answered_in_time w 1 ms1 → answered_in_time w 2 ms2 →
  execute (queryWithTimeout (λ w, respond (q w) w) 5000) context w
  = (Settles (ms0 + 1000 + ms1 + 2000 + ms2)
       (Rejected (mkError (context +:+ " failed after 2 retries: " +:+ message e))),
     with_round_trips (round_trips w + 3) w).
Proof.
  intros Hq [H0 L0] [H1 L1] [H2 L2].
  rewrite (execute_three_rejections _ _ _ ms0 e ms1 e ms2 e).
  - rewrite world_after_timeout.
    by rewrite (world_after_exchange q), with_round_trips_twice.
  - by rewrite outcome_timeout, (outcome_exchange q q_stable), H0, Hq, timed_in_time.
  - by rewrite outcome_timeout, (outcome_exchange q q_stable), H1, Hq, timed_in_time.
  - by rewrite outcome_timeout, (outcome_exchange q q_stable), H2, Hq, timed_in_time.
Qed.

End Exchanges.

Lemma tracked_rethrow_eq {T} name prefix (queryFn : task World T) w ms s w' :
  queryFn w = (Settles ms s, w') →
  trackQueryPerformance name (rethrow prefix queryFn) w =
  (match s with
   | Rejected e => Settles ms (Rejected (mkError (prefix +:+ message e)))
   | Resolved v => Settles ms (Resolved v)
   end,
   with_monitor
     (logQuery name ms
        (match s with
         | Rejected e => Some (prefix +:+ message e)
         | Resolved _ => None
         end) (performanceMonitor w')) w').
Proof.
  intros Hq. unfold trackQueryPerformance, rethrow. rewrite Hq. by destruct s.
Qed.

(** X12.  [getBillWithDetails] only reads.  Whatever the session, the store and the
    network are, the call settles, and the world it leaves is the world it
    found but for one to three more exchanges and one more entry in the query
    log, which carries the name of the call, the time it took and, after a
    rejection, the message thrown.  A signed-in call answered in time at once
    makes exactly one exchange. *)
Theorem getBillWithDetails_read_only renterId month year w :
  ∃ total s k,
    (1 ≤ k ≤ 3)%nat ∧
    getBillWithDetails renterId month year w
    = (Settles total s,
       with_monitor
         (logQuery "getBillWithDetails" total (error_text s) (performanceMonitor w))
         (with_round_trips (round_trips w + k) w)) ∧
    (is_Some (session w) → (∃ ms, answers_in_time w ms) → k = 1%nat).
Proof.
  destruct (exchange_execute (getBillWithDetails_query renterId month year)
              "getBillWithDetails" w)
    as (total & s & k & Hk & Hex).
  exists total,
    (match s with
     | Rejected e => Rejected (mkError ("Failed to fetch bill details: " +:+ message e))
     | Resolved v => Resolved v
     end), k.
  split; [done|]. split.
  - unfold getBillWithDetails. rewrite (tracked_rethrow_eq _ _ _ _ _ _ _ Hex).
    by destruct s.
  - intros [user Hs] (ms & Hms).
    assert (∃ d, getBillWithDetails_query renterId month year w = Resolved d) as [d Hd].
    { unfold getBillWithDetails_query. rewrite Hs.
      destruct (rpc_get_bill_with_details _ _ _ _ _) as [msg|[data|]]; eauto. }
    destruct Hms as [Hl Hlt].
    rewrite (execute_timed_first _ 5000 _ _ ms d) in Hex.
    + apply (f_equal (λ x, round_trips x.2)) in Hex. simpl in Hex. lia.
    + unfold respond. simpl. by rewrite Hl, Hd.
    + lia.
Qed.

Lemma saveBillComplete_signed_out_world bd es ps w j :
  session w = None →
  world_after (saveBillComplete_query bd es ps) w j
  = with_round_trips (round_trips w + j) w.
Proof.
  intros Hs. induction j as [|j IH].
  - simpl. rewrite Nat.add_0_r. by destruct w.
  - change (world_after ?f w (S j)) with (snd (f (world_after f w j))).
    rewrite IH. unfold saveBillComplete_query. simpl. rewrite Hs. simpl.
    rewrite with_round_trips_twice. f_equal. lia.
Qed.

Lemma saveBillComplete_signed_out_outcome bd es ps w j :
  session w = None →
  outcome (saveBillComplete_query bd es ps) w j =
  match latency w (round_trips w + j) with
  | Some ms => Settles ms (Rejected (mkError "User not authenticated"))
  | None => Pending
  end.
Proof.
  intros Hs. unfold outcome. rewrite saveBillComplete_signed_out_world by done.
  unfold saveBillComplete_query. simpl. by rewrite Hs.
Qed.

(** X13.  Nobody signed in: the missing session is treated like a transient fault.
    Neither call can resolve; when the three answers arrive in time each call
    makes all three attempts, sleeps 1000 and 2000 ms between them, and
    rejects with the message of the session check under both prefixes.  A
    save leaves the store as it was. *)
Theorem signed_out_calls_reject w :
  session w = None →
  (∀ renterId month year total d,
     (getBillWithDetails renterId month year w).1 ≠ Settles total (Resolved d)) ∧
  (∀ billData expenses payments total res,
     (saveBillComplete billData expenses payments w).1 ≠ Settles total (Resolved res)) ∧
  (∀ billData expenses payments,
     db (saveBillComplete billData expenses payments w).2 = db w) ∧
  (∀ ms0 ms1 ms2,
     answered_in_time w 0 ms0 → answered_in_time w 1 ms1 → answered_in_time w 2 ms2 →
     (∀ renterId month year,
        (getBillWithDetails renterId month year w).1 =
        Settles (ms0 + 1000 + ms1 + 2000 + ms2)
          (Rejected (mkError ("Failed to fetch bill details: "
                              +:+ "getBillWithDetails failed after 2 retries: "
                              +:+ "User not authenticated"))) ∧
        round_trips (getBillWithDetails renterId month year w).2
        = (round_trips w + 3)%nat) ∧
     (∀ billData expenses payments,
        (saveBillComplete billData expenses payments w).1 =
        Settles (ms0 + 1000 + ms1 + 2000 + ms2)
          (Rejected (mkError ("Failed to save bill: "
                              +:+ "saveBillComplete failed after 2 retries: "
                              +:+ "User not authenticated"))) ∧
        round_trips (saveBillComplete billData expenses payments w).2
        = (round_trips w + 3)%nat)).
Proof.
  intros Hs.
  pose proof (λ r m y, getBillWithDetails_query_stable r m y) as Hst.
  assert (Hq : ∀ r m y, getBillWithDetails_query r m y w
                        = Rejected (mkError "User not authenticated")).
  { intros. unfold getBillWithDetails_query. by rewrite Hs. }
  split_and!.
  - intros r m y total d Hres. apply getBillWithDetails_resolved in Hres.
    by rewrite Hq in Hres.
  - intros bd es ps total res Hres. unfold saveBillComplete in Hres.
    rewrite tracked_rethrow_fst in Hres.
    destruct (execute _ _ w).1 as [|ms [v|e]] eqn:He; [done| |done].
    apply execute_resolved in He as (j & ms' & _ & Hj).
    rewrite outcome_timeout in Hj. apply timed_resolved in Hj.
    rewrite (saveBillComplete_signed_out_outcome _ _ _ _ _ Hs) in Hj.
    by destruct (latency w _).
  - intros bd es ps. unfold saveBillComplete. rewrite tracked_rethrow_db.
    destruct (execute_cases
                (queryWithTimeout (saveBillComplete_query bd es ps) 5000)
                "saveBillComplete" w)
      as [(k & _ & _ & -> & _)|(m0 & f0 & m1 & f1 & m2 & f2 & _ & _ & _ & ->)];
      cbn [snd]; rewrite world_after_timeout;
      by rewrite (saveBillComplete_signed_out_world _ _ _ _ _ Hs).
  - intros ms0 ms1 ms2 A0 A1 A2. split.
    + intros r m y. unfold getBillWithDetails.
      rewrite (tracked_rethrow_eq _ _ _ _ _ _ _
                 (exchange_rejected _ (Hst r m y) "getBillWithDetails" w _
                    ms0 ms1 ms2 (Hq r m y) A0 A1 A2)).
      done.
    + intros bd es ps. unfold saveBillComplete.
      destruct A0 as [H0 L0], A1 as [H1 L1], A2 as [H2 L2].
      assert (Hout : ∀ j ms, latency w (round_trips w + j) = Some ms → ms < 5000 →
                outcome (queryWithTimeout (saveBillComplete_query bd es ps) 5000) w j
                = Settles ms (Rejected (mkError "User not authenticated"))).
      { intros j ms Hj Lj.
        by rewrite outcome_timeout, (saveBillComplete_signed_out_outcome _ _ _ _ _ Hs),
          Hj, timed_in_time. }
      rewrite (tracked_rethrow_eq _ _ _ _ _ _ _
                 (execute_three_rejections _ "saveBillComplete" w _ _ _ _ _ _
                    (Hout _ _ H0 L0) (Hout _ _ H1 L1) (Hout _ _ H2 L2))).
      rewrite world_after_timeout, (saveBillComplete_signed_out_world _ _ _ _ _ Hs).
      done.
Qed.

(** *** The two paths of [getBillWithDetails] *)





Lemma getMonthlyBill_denied renterId w :
  (∀ user, session w = Some user → ¬ owns (db w) user renterId) →
  ∀ m y, getMonthlyBill renterId m y w = None.
Proof.
  intros Hno m y. unfold getMonthlyBill.
  destruct (session w) as [user|] eqn:Hs; [|done].
  destruct (renters (db w) !! renterId) as [renter|] eqn:Hr; [|done].
  case_decide as Hu; [|done].
  destruct (Hno user eq_refl). by exists renter.
Qed.

(** X15.  The ownership check of [getMonthlyBill] throws into its own catch-all.
    On the decomposed path a tenant that is not the signed-in user's
    therefore gets the empty aggregate with zero readings, whatever bills the
    store holds under that tenant; no error reaches the caller. *)
Theorem parallel_fallback_swallows_access_denied renterId month year w ms :
  (∀ user, session w = Some user → ¬ owns (db w) user renterId) →
  parallel_fallback renterId month year w = empty_details zero_readings ∧
  (is_Some (session w) → rpc_deployed w = false → answers_in_time w ms →
   (getBillWithDetails renterId month year w).1
   = Settles ms (Resolved (empty_details zero_readings))).
Proof.
  intros Hno.
  pose proof (getMonthlyBill_denied renterId w Hno) as Hnone.
  assert (Hfb : parallel_fallback renterId month year w = empty_details zero_readings).
  { unfold parallel_fallback. rewrite getPreviousMonthBill_period.
    by rewrite !Hnone. }
  split; [done|].
  intros [user Hs] Hrpc Hms. apply getBillWithDetails_in_time; [done|].
  unfold getBillWithDetails_query, rpc_get_bill_with_details.
  by rewrite Hs, Hrpc, Hfb.
Qed.

End ServiceMore.

(** ** The query log *)

Section MonitorFacts.
Import Monitor MonitorQueries.

Lemma logQuery_step name time err m :
  (length (queryLogs m) ≤ MAX_LOG_SIZE)%nat →
  queryLogs (logQuery name time err m)
  = drop (length (queryLogs m ++ [metrics (name, time, err)]) - MAX_LOG_SIZE)
         (queryLogs m ++ [metrics (name, time, err)]).
Proof.
  intros Hlen. unfold logQuery, metrics. simpl.
  rewrite length_app. simpl. case_decide as Hfull.
  - replace (length (queryLogs m) + 1 - MAX_LOG_SIZE)%nat with 1%nat by lia.
    by destruct (queryLogs m).
  - by replace (length (queryLogs m) + 1 - MAX_LOG_SIZE)%nat with 0%nat by lia.
Qed.

Lemma drop_last_step {A} (L : list A) x n :
  drop (length (drop (length L - n) L ++ [x]) - n) (drop (length L - n) L ++ [x])
  = drop (length (L ++ [x]) - n) (L ++ [x]).
Proof.
  rewrite !length_app, length_drop. simpl.
  destruct (decide (length L ≤ n)%nat) as [Hle|Hgt].
  - replace (length L - n)%nat with 0%nat by lia. simpl. by rewrite Nat.sub_0_r.
  - replace (length L - (length L - n) + 1 - n)%nat with 1%nat by lia.
    rewrite <- (drop_app_le L [x]) by lia. rewrite drop_drop. f_equal. lia.
Qed.

Lemma log_all_snoc calls c m :
  log_all (calls ++ [c]) m = logQuery c.1.1 c.1.2 c.2 (log_all calls m).
Proof. unfold log_all. by rewrite foldl_app. Qed.

Lemma log_all_logs calls m :
  (length (queryLogs m) ≤ MAX_LOG_SIZE)%nat →
  queryLogs (log_all calls m)
  = drop (length (queryLogs m ++ (metrics <$> calls)) - MAX_LOG_SIZE)
         (queryLogs m ++ (metrics <$> calls)) ∧
  (length (queryLogs (log_all calls m)) ≤ MAX_LOG_SIZE)%nat.
Proof.
  intros Hlen. induction calls as [|c calls IH] using rev_ind.
  - simpl. rewrite app_nil_r.
    replace (length (queryLogs m) - MAX_LOG_SIZE)%nat with 0%nat by lia. done.
  - destruct IH as (Hlogs & Hbound).
    rewrite log_all_snoc. split;
      [|by rewrite logQuery_step, length_drop, length_app; simpl; lia].
    rewrite logQuery_step by done. destruct c as [[name time] err]. simpl.
    rewrite Hlogs, fmap_app, app_assoc. apply drop_last_step.
Qed.

Lemma log_all_counters calls m :
  cacheHits (log_all calls m) = cacheHits m ∧
  cacheMisses (log_all calls m) = cacheMisses m.
Proof.
  induction calls as [|c calls IH] using rev_ind; [done|].
  by rewrite log_all_snoc.
Qed.

(** X16.  The log keeps the last hundred entries.  After any run of [logQuery]
    calls on a log within the bound, the log is the old entries followed by
    one entry per call, in call order, cut down from the front to the last
    [MAX_LOG_SIZE]; the cache counters are not touched. *)
Theorem logQuery_keeps_last_entries calls m :
  (length (queryLogs m) ≤ MAX_LOG_SIZE)%nat →
  queryLogs (log_all calls m)
  = drop (length (queryLogs m ++ (metrics <$> calls)) - MAX_LOG_SIZE)
         (queryLogs m ++ (metrics <$> calls)) ∧
  (length (queryLogs (log_all calls m)) ≤ MAX_LOG_SIZE)%nat ∧
  cacheHits (log_all calls m) = cacheHits m ∧
  cacheMisses (log_all calls m) = cacheMisses m.
Proof.
  intros Hlen.
  destruct (log_all_logs calls m Hlen) as [Hlogs Hbound].
  destruct (log_all_counters calls m) as [Hhits Hmisses].
  done.
Qed.

Lemma filter_slow (l : list QueryMetrics) :
  Forall (λ e, isSlow e = bool_decide (SLOW_QUERY_THRESHOLD < executionTime e)) l →
  filter (λ log, isSlow log = true) l
  = filter (λ e, SLOW_QUERY_THRESHOLD < executionTime e) l.
Proof.
  induction 1 as [|e l He _ IH]; [done|].
  rewrite !filter_cons, IH. rewrite He.
  destruct (decide (SLOW_QUERY_THRESHOLD < executionTime e)) as [Hs|Hs].
  - rewrite bool_decide_eq_true_2 by done. by rewrite decide_True.
  - rewrite bool_decide_eq_false_2 by done. by rewrite decide_False.
Qed.

(** X17.  [getSlowQueries] after [clear] and a run of calls: the calls among the
    last hundred that took more than 500 ms, in call order; a call of exactly
    500 ms is not slow. *)
Theorem getSlowQueries_after_clear calls m :
  getSlowQueries (log_all calls (clear m))
  = filter (λ e, SLOW_QUERY_THRESHOLD < executionTime e)
      (drop (length calls - MAX_LOG_SIZE) (metrics <$> calls)) ∧
  (∀ name err, getSlowQueries (logQuery name 500 err (clear m)) = []) ∧
  (∀ name err, getSlowQueries (logQuery name 501 err (clear m))
               = [mkQueryMetrics name 501 err true]).
Proof.
  split; [|done].
  destruct (log_all_logs calls (clear m)) as (Hlogs & _).
  { simpl. unfold MAX_LOG_SIZE. lia. }
  simpl in Hlogs. rewrite length_fmap in Hlogs.
  unfold getSlowQueries. rewrite Hlogs. apply filter_slow.
  apply Forall_drop, Forall_fmap, Forall_forall. done.
Qed.

End MonitorFacts.

(** ** Cache keys *)

Section KeyFacts.
Import Stdlib.Strings.Ascii Keys BillCache.

Lemma pretty_N_char_digit x : is_digit (pretty_N_char x).
Proof. unfold pretty_N_char. repeat case_match; by eexists. Qed.

Lemma dash_no_digit : ¬ is_digit "-"%char.
Proof. by intros [n Hn]. Qed.

Lemma pretty_N_go_digits x s : digits s → digits (pretty_N_go x s).
Proof.
  revert s. induction (N.lt_wf_0 x) as [x _ IH]. intros s Hs.
  assert (x = 0 ∨ 0 < x)%N as [->|Hpos] by lia.
  - by rewrite pretty_N_go_0.
  - rewrite pretty_N_go_step by done. apply IH.
    + by apply N.div_lt.
    + split; [apply pretty_N_char_digit|done].
Qed.

Lemma pretty_N_go_length x s :
  (String.length s ≤ String.length (pretty_N_go x s))%nat.
Proof.
  revert s. induction (N.lt_wf_0 x) as [x _ IH]. intros s.
  assert (x = 0 ∨ 0 < x)%N as [->|Hpos] by lia.
  - by rewrite pretty_N_go_0.
  - rewrite pretty_N_go_step by done.
    etrans; [|apply IH; by apply N.div_lt]. simpl. lia.
Qed.

Lemma pretty_N_digits (x : N) : digits (pretty x) ∧ pretty x ≠ "".
Proof.
  unfold pretty, pretty_N. case_decide as Hx.
  - split; [|done]. split; [by eexists|done].
  - split; [by apply pretty_N_go_digits|].
    rewrite pretty_N_go_step by lia. intros Heq.
    pose proof (pretty_N_go_length (x `div` 10)
                  (String (pretty_N_char (x `mod` 10)) "")) as Hlen.
    rewrite Heq in Hlen. simpl in Hlen. lia.
Qed.

(** A decimal numeral followed by a dash ends where the dash is. *)
Lemma digits_dash_split d1 d2 t1 t2 :
  digits d1 → digits d2 →
  d1 +:+ String "-"%char t1 = d2 +:+ String "-"%char t2 → d1 = d2 ∧ t1 = t2.
Proof.
  revert d2. induction d1 as [|c d1 IH]; intros [|c' d2] H1 H2 Heq;
    rewrite ?append_nil, ?append_cons in Heq.
  - by injection Heq as ->.
  - injection Heq as <- _. destruct H2 as [Hc _]. by destruct dash_no_digit.
  - injection Heq as -> _. destruct H1 as [Hc _]. by destruct dash_no_digit.
  - injection Heq as -> Heq. destruct H1 as [_ H1], H2 as [_ H2].
    destruct (IH d2 H1 H2 Heq) as [-> ->]. done.
Qed.

Lemma pretty_Z_dash_split (z1 z2 : Z) t1 t2 :
  pretty z1 +:+ "-" +:+ t1 = pretty z2 +:+ "-" +:+ t2 → z1 = z2 ∧ t1 = t2.
Proof.
  change ("-" +:+ t1) with (String "-"%char t1). change ("-" +:+ t2) with (String "-"%char t2).
  assert (Hnat : ∀ x y : N, pretty x +:+ String "-"%char t1 = pretty y +:+ String "-"%char t2 →
                            x = y ∧ t1 = t2).
  { intros x y Heq.
    apply digits_dash_split in Heq as [Heq ->]; [|apply pretty_N_digits..].
    by apply (inj pretty) in Heq as ->. }
  assert (Hmix : ∀ (x : N) s t, pretty x +:+ s ≠ String "-"%char t).
  { intros x s t Heq. destruct (pretty_N_digits x) as [Hd Hne].
    destruct (pretty x) as [|c d]; [done|].
    rewrite append_cons in Heq. injection Heq as -> _.
    destruct Hd as [Hc _]. by destruct dash_no_digit. }
  unfold pretty, pretty_Z.
  destruct z1 as [|x|x], z2 as [|y|y]; intros Heq.
  - by injection Heq as ->.
  - apply (Hnat 0%N (N.pos y)) in Heq as [[=] _].
  - by destruct (Hmix 0%N (String "-"%char t1) (pretty y +:+ String "-"%char t2)).
  - apply (Hnat (N.pos x) 0%N) in Heq as [[=] _].
  - apply (Hnat (N.pos x) (N.pos y)) in Heq as [[= ->] ->]. done.
  - change ("-" +:+ pretty y) with (String "-"%char (pretty y)) in Heq.
    rewrite (append_cons _ (pretty y)) in Heq.
    by destruct (Hmix (N.pos x) (String "-"%char t1) (pretty y +:+ String "-"%char t2)).
  - by destruct (Hmix 0%N (String "-"%char t2) (pretty x +:+ String "-"%char t1)).
  - change ("-" +:+ pretty x) with (String "-"%char (pretty x)) in Heq.
    rewrite (append_cons _ (pretty x)) in Heq.
    by destruct (Hmix (N.pos y) (String "-"%char t2) (pretty x +:+ String "-"%char t1)).
  - change ("-" +:+ pretty x) with (String "-"%char (pretty x)) in Heq.
    change ("-" +:+ pretty y) with (String "-"%char (pretty y)) in Heq.
    rewrite !append_cons in Heq. injection Heq as Heq.
    apply (Hnat (N.pos x) (N.pos y)) in Heq as [[= ->] ->]. done.
Qed.

Lemma getCacheKey_inj_keys renterId month year renterId' month' year' :
  getCacheKey renterId month year = getCacheKey renterId' month' year' →
  renterId = renterId' ∧ month = month' ∧ year = year'.
Proof.
  unfold getCacheKey. intros Heq.
  apply pretty_Z_dash_split in Heq as [-> Heq].
  apply pretty_Z_dash_split in Heq as [-> Heq].
  by apply (inj pretty) in Heq as ->.
Qed.


End KeyFacts.

(** ** Cache entries *)

Section CacheMore.
Import Async Store Monitor Data SupabaseService BillCache.

Lemma getCacheKey_ne renterId month year renterId' month' year' :
  (renterId', month', year') ≠ (renterId, month, year) →
  getCacheKey renterId month year ≠ getCacheKey renterId' month' year'.
Proof.
  intros Hne Heq. apply getCacheKey_inj_keys in Heq as (-> & -> & ->). done.
Qed.

(** X19.  [set] then [get]: the month just stored is served, fresh until the TTL
    has gone by since the write; every other month is served as before. *)
Theorem set_then_get t t' renterId month year d w :
  (get t' renterId month year (set t renterId month year d w)).1 = Some d ∧
  isStale t' renterId month year (set t renterId month year d w)
  = bool_decide (t' - t > CACHE_TTL) ∧
  (∀ renterId' month' year',
     (renterId', month', year') ≠ (renterId, month, year) →
     (get t' renterId' month' year' (set t renterId month year d w)).1
     = (get t' renterId' month' year' w).1 ∧
     isStale t' renterId' month' year' (set t renterId month year d w)
     = isStale t' renterId' month' year' w).
Proof.
  unfold get, isStale, set. simpl. split_and!.
  - rewrite lookup_insert_eq. simpl. done.
  - by rewrite lookup_insert_eq.
  - intros r' m' y' Hne. apply getCacheKey_ne in Hne.
    rewrite lookup_insert_ne by done.
    by destruct (cache w !! getCacheKey r' m' y').
Qed.

(** X20.  [invalidate] then [get]: the month is gone, which [get] counts as a miss,
    and it is not stale; every other month is served as before.  After
    [clear] every month is gone. *)
Theorem invalidate_then_get t renterId month year w :
  get t renterId month year (invalidate renterId month year w)
  = (None, with_monitor (recordCacheMiss (performanceMonitor w))
             (invalidate renterId month year w)) ∧
  (∀ renterId' month' year',
     (renterId', month', year') ≠ (renterId, month, year) →
     (get t renterId' month' year' (invalidate renterId month year w)).1
     = (get t renterId' month' year' w).1 ∧
     isStale t renterId' month' year' (invalidate renterId month year w)
     = isStale t renterId' month' year' w) ∧
  (∀ renterId' month' year', (get t renterId' month' year' (clear w)).1 = None).
Proof.
  unfold get, isStale, invalidate, clear. simpl. split_and!.
  - by rewrite lookup_delete_eq.
  - intros r' m' y' Hne. apply getCacheKey_ne in Hne.
    rewrite lookup_delete_ne by done.
    by destruct (cache w !! getCacheKey r' m' y').
  - intros. by rewrite lookup_empty.
Qed.

(** X21.  A load that could not read is cached all the same.  The reads awaited by
    [loadIfNotCached] swallow their own errors, so with nobody signed in, or
    for a tenant that is not the user's, the load does not reach its [catch]:
    once the exchange is answered the key holds a blank month (the rent
    passed in, readings zero, nothing enabled, no expenses, no payments),
    and [get] serves it from then on. *)
Theorem loadIfNotCached_caches_failed_read t0 t renterId month year monthlyRent w ms :
  cache w !! getCacheKey renterId month year = None →
  latency w (round_trips w) = Some ms →
  (∀ user, session w = Some user → ¬ owns (db w) user renterId) →
  let w' := loadIfNotCached t0 renterId month year monthlyRent w in
  cache w' !! getCacheKey renterId month year
  = Some (mkCacheEntry (fresh_month_data (t0 + ms) monthlyRent None) (t0 + ms) false) ∧
  (get t renterId month year w').1
  = Some {| rentAmount := monthlyRent;
            electricityEnabled := false;
            electricityData := mkElectricityData 0 0 default_multiplier (DateAt (t0 + ms));
            motorEnabled := false;
            motorData := mkMotorData 0 0 default_multiplier 2 (DateAt (t0 + ms));
            waterEnabled := false;
            waterAmount := 0;
            maintenanceEnabled := false;
            maintenanceAmount := 0;
            additionalExpenses := [];
            Data.payments := [] |}.
Proof.
  intros Hmiss Hl Hno w'.
  destruct (loadIfNotCached_spec t0 renterId month year monthlyRent w)
    as (_ & _ & _ & _ & Hkey).
  rewrite Hmiss in Hkey. destruct Hkey as [_ Hkey]. rewrite Hl in Hkey. simpl in Hkey.
  assert (Hload : load_month_data (t0 + ms) renterId month year monthlyRent w
                  = fresh_month_data (t0 + ms) monthlyRent None).
  { unfold load_month_data. rewrite getPreviousMonthBill_period.
    by rewrite !(getMonthlyBill_denied renterId w Hno). }
  rewrite Hload in Hkey. fold w' in Hkey. split; [done|].
  unfold get. rewrite Hkey. simpl. done.
Qed.

End CacheMore.

(** ** Further worked examples *)

Section MoreExamples.
Import Async Store Monitor Data SupabaseService BillCache MonitorQueries Calls.
Import Sample Scenarios.

Lemma execute_waits_forever_witness :
  (1 ≤ maxRetries)%nat ∧
  outcome stalling 0%nat 1 = Pending ∧
  execute stalling "saveBillComplete" 0%nat = (Pending, 2%nat).
Proof.
  split_and!; [unfold maxRetries; lia|reflexivity|].
  apply (execute_waits_forever stalling "saveBillComplete" 0%nat 1).
  - unfold maxRetries. lia.
  - intros [|j] Hj; [by eexists _, _|lia].
  - reflexivity.
Defined.


Lemma known_incoming_expenses :
  known_children "bill-2025-12" (additional_expenses store) incoming_expenses.
Proof.
  split.
  - change (NoDup ["exp-1"]). apply NoDup_singleton.
  - intros k Hk. change (k ∈ ["exp-1"]) in Hk. apply list_elem_of_singleton in Hk as ->.
    eexists. split; [vm_compute; reflexivity|reflexivity].
Qed.

Lemma known_incoming_payments :
  known_children "bill-2025-12" (bill_payments store) incoming_payments.
Proof.
  split.
  - change (NoDup ["pay-1"]). apply NoDup_singleton.
  - intros k Hk. change (k ∈ ["pay-1"]) in Hk. apply list_elem_of_singleton in Hk as ->.
    eexists. split; [vm_compute; reflexivity|reflexivity].
Qed.

(** Saving December leaves November and its expense alone. *)
Lemma save_bill_complete_frame_witness :
  ∃ res db',
    save_bill_complete december_json incoming_expenses incoming_payments "user-1"
      two_bills = inr (res, db') ∧
    monthly_bills db' !! (7, 11, 2025) = Some november ∧
    additional_expenses db' !! "exp-0" = Some (mkChildRow "bill-2025-11" repair 60).
Proof.
  destruct (save_bill_complete december_json incoming_expenses incoming_payments
              "user-1" two_bills) as [e|[res db']] eqn:Hsave;
    [vm_compute in Hsave; discriminate|].
  exists res, db'. split; [reflexivity|].
  assert (Hb : result_bill_id res = "bill-2025-12").
  { pose proof Hsave as Hc. vm_compute in Hc. by injection Hc as <- _. }
  destruct (save_bill_complete_frame _ _ _ _ _ _ _ Hsave) as (_ & _ & Hbills & Hexp & _).
  split.
  - rewrite Hbills; [vm_compute; reflexivity|vm_compute; discriminate].
  - apply Hexp; [rewrite Hb; simpl; discriminate|vm_compute; reflexivity].
Defined.

(** An identity the store does not hold comes back all the same. *)
Lemma save_bill_complete_echoes_identities_witness :
  ∃ res db',
    save_bill_complete december_json [expense (Some "exp-9") plumbing] [] "user-1"
      store = inr (res, db') ∧
    length (expense_ids res) = 1%nat ∧
    expense_ids res !! 0%nat = Some "exp-9".
Proof.
  destruct (save_bill_complete december_json [expense (Some "exp-9") plumbing] []
              "user-1" store) as [e|[res db']] eqn:Hsave;
    [vm_compute in Hsave; discriminate|].
  exists res, db'. split; [reflexivity|].
  destruct (save_bill_complete_echoes_identities _ _ _ _ _ _ _ Hsave)
    as (_ & Hlen & _ & Hecho & _).
  split; [exact Hlen|].
  exact (Hecho 0%nat (expense (Some "exp-9") plumbing) "exp-9" eq_refl eq_refl).
Defined.

(** user-2 saves December 2025 of tenant 7: the bill stays user-1's. *)
Lemma save_bill_complete_upsert_witness :
  ∃ res db',
    save_bill_complete december_json [] [] "user-2" store = inr (res, db') ∧
    result_bill_id res = "bill-2025-12" ∧
    monthly_bills db' !! bill_key december_json
    = Some (mkBillRow "bill-2025-12" (Some "user-1") (fields december_json) 100 1000).
Proof.
  destruct (save_bill_complete december_json [] [] "user-2" store)
    as [e|[res db']] eqn:Hsave; [vm_compute in Hsave; discriminate|].
  exists res, db'. split; [reflexivity|].
  pose proof (save_bill_complete_upsert _ _ _ _ _ _ _ Hsave) as Hup.
  assert (Hrow : monthly_bills store !! bill_key december_json = Some december)
    by (vm_compute; reflexivity).
  rewrite Hrow in Hup. exact Hup.
Defined.

Lemma save_bill_complete_unknown_renter_witness :
  monthly_bills store !! bill_key stranger_json = None ∧
  renters store !! renter_id stranger_json = None ∧
  ∃ e, save_bill_complete stranger_json incoming_expenses incoming_payments
         "user-1" store = inl e.
Proof.
  assert (H1 : monthly_bills store !! bill_key stranger_json = None)
    by (vm_compute; reflexivity).
  assert (H2 : renters store !! renter_id stranger_json = None)
    by (vm_compute; reflexivity).
  split; [exact H1|]. split; [exact H2|].
  exact (save_bill_complete_unknown_renter stranger_json incoming_expenses
           incoming_payments "user-1" store H1 H2).
Defined.

Lemma save_then_get_bill_with_details_witness :
  ∃ res db' d b,
    save_bill_complete december_json incoming_expenses incoming_payments "user-1"
      store = inr (res, db') ∧
    get_bill_with_details db' 7 12 2025 "user-1" = Some d ∧
    bill d = Some b ∧
    fields b = fields december_json ∧
    RoundTrip.returns_items (result_bill_id res) (expenses d) incoming_expenses
      (expense_ids res) ∧
    RoundTrip.returns_items (result_bill_id res) (Store.payments d) incoming_payments
      (payment_ids res).
Proof.
  destruct (save_bill_complete december_json incoming_expenses incoming_payments
              "user-1" store) as [e|[res db']] eqn:Hsave;
    [vm_compute in Hsave; discriminate|].
  assert (Hb : result_bill_id res = "bill-2025-12").
  { pose proof Hsave as Hc. vm_compute in Hc. by injection Hc as <- _. }
  assert (Hown : ∀ row, monthly_bills store !! bill_key december_json = Some row →
                        bill_user_id row = Some "user-1").
  { intros row Hrow. vm_compute in Hrow. by injection Hrow as <-. }
  pose proof known_incoming_expenses as Hke. pose proof known_incoming_payments as Hkp.
  rewrite <- Hb in Hke, Hkp.
  destruct (save_then_get_bill_with_details _ _ _ _ _ _ _ Hsave Hown Hke Hkp)
    as (d & b & Hd & Hbill & _ & _ & Hf & He & Hp).
  exists res, db', d, b. split_and!; done.
Defined.

Lemma expected_december :
  expected_bill_id store december_json = "bill-2025-12".
Proof. vm_compute. reflexivity. Qed.


(** All three answers take 6000 ms: the call rejects, the bill is saved. *)
Lemma saveBillComplete_rejected_yet_applied_witness :
  (saveBillComplete december_json incoming_expenses incoming_payments
     (world true (Some 6000))).1
  = Settles 18000
      (Rejected (mkError ("Failed to save bill: "
                          +:+ "saveBillComplete failed after 2 retries: "
                          +:+ "Query timeout - operation took longer than expected"))) ∧
  ∃ row,
    monthly_bills
      (db (saveBillComplete december_json incoming_expenses incoming_payments
             (world true (Some 6000))).2) !! bill_key december_json = Some row ∧
    bill_fields row = fields december_json.
Proof.
  destruct (save_bill_complete december_json incoming_expenses incoming_payments
              "user-1" store) as [e|[res0 d0]] eqn:Hsave;
    [vm_compute in Hsave; discriminate|].
  pose proof known_incoming_expenses as Hke. pose proof known_incoming_payments as Hkp.
  rewrite <- expected_december in Hke, Hkp.
  assert (Hlate : ∀ j, (j ≤ maxRetries)%nat → answered_late (world true (Some 6000)) j).
  { intros j _. exists 6000. split; [reflexivity|lia]. }
  destruct (saveBillComplete_rejected_yet_applied december_json incoming_expenses
              incoming_payments (world true (Some 6000)) "user-1" res0 d0
              eq_refl eq_refl Hsave Hke Hkp Hlate)
    as (Hrej & (row & Hrow & _ & Hfields) & _).
  split; [exact Hrej|]. exists row. split; [exact Hrow|exact Hfields].
Defined.

Lemma signed_out_calls_reject_witness :
  session signed_out = None ∧
  (getBillWithDetails 7 12 2025 signed_out).1
  = Settles (120 + 1000 + 120 + 2000 + 120)
      (Rejected (mkError ("Failed to fetch bill details: "
                          +:+ "getBillWithDetails failed after 2 retries: "
                          +:+ "User not authenticated"))) ∧
  db (saveBillComplete december_json incoming_expenses incoming_payments signed_out).2
  = store.
Proof.
  split; [reflexivity|].
  destruct (signed_out_calls_reject signed_out eq_refl) as (_ & _ & Hdb & Hrej).
  split; [|apply Hdb].
  assert (Hin : ∀ j, answered_in_time signed_out j 120)
    by (intros j; split; [reflexivity|lia]).
  destruct (Hrej 120 120 120 (Hin 0%nat) (Hin 1%nat) (Hin 2%nat)) as [Hget _].
  apply Hget.
Defined.


Lemma parallel_fallback_swallows_access_denied_witness :
  (∀ user, session (world false (Some 120)) = Some user →
           ¬ owns (db (world false (Some 120))) user 99) ∧
  (getBillWithDetails 99 12 2025 (world false (Some 120))).1
  = Settles 120 (Resolved (empty_details zero_readings)).
Proof.
  assert (Hno : ∀ user, session (world false (Some 120)) = Some user →
                        ¬ owns (db (world false (Some 120))) user 99).
  { intros user [= <-]. exact nobody_owns_99. }
  split; [exact Hno|].
  destruct (parallel_fallback_swallows_access_denied 99 12 2025
              (world false (Some 120)) 120 Hno) as [_ Hget].
  apply Hget; [by eexists|reflexivity|apply in_time_120].
Defined.

(** A hundred and one calls on an empty log: a hundred entries stay. *)
Lemma logQuery_keeps_last_entries_witness :
  (length (queryLogs (mkMonitor [] 0 0)) ≤ MAX_LOG_SIZE)%nat ∧
  (length (queryLogs (log_all (replicate 101 ("getBillWithDetails", 120%Z, None))
                        (mkMonitor [] 0 0))) ≤ MAX_LOG_SIZE)%nat.
Proof.
  assert (H0 : (length (queryLogs (mkMonitor [] 0 0)) ≤ MAX_LOG_SIZE)%nat)
    by (simpl; unfold MAX_LOG_SIZE; lia).
  split; [exact H0|].
  destruct (logQuery_keeps_last_entries
              (replicate 101 ("getBillWithDetails", 120%Z, None)) (mkMonitor [] 0 0) H0)
    as (_ & Hbound & _).
  exact Hbound.
Defined.

(** Signed out, January 2026 of tenant 7 is cached as a blank month. *)
Lemma loadIfNotCached_caches_failed_read_witness :
  cache signed_out !! getCacheKey 7 1 2026 = None ∧
  latency signed_out (round_trips signed_out) = Some 120 ∧
  (get 500 7 1 2026 (loadIfNotCached 0 7 1 2026 600000 signed_out)).1
  = Some {| rentAmount := 600000;
            electricityEnabled := false;
            electricityData := mkElectricityData 0 0 default_multiplier (DateAt (0 + 120));
            motorEnabled := false;
            motorData := mkMotorData 0 0 default_multiplier 2 (DateAt (0 + 120));
            waterEnabled := false;
            waterAmount := 0;
            maintenanceEnabled := false;
            maintenanceAmount := 0;
            additionalExpenses := [];
            Data.payments := [] |}.
Proof.
  assert (H1 : cache signed_out !! getCacheKey 7 1 2026 = None) by reflexivity.
  split; [exact H1|]. split; [reflexivity|].
  assert (Hno : ∀ user, session signed_out = Some user →
                        ¬ owns (db signed_out) user 7) by (intros user [=]).
  destruct (loadIfNotCached_caches_failed_read 0 500 7 1 2026 600000 signed_out 120
              H1 eq_refl Hno) as [_ Hget].
  exact Hget.
Defined.

End MoreExamples.
